(** * Freedom24 profit calculator: the cost-basis engine

    A shallow embedding of [python_prototype/src/models.py] and of the
    methods of [ProfitCalculator] from [python_prototype/src/calculator.py],
    followed by the properties that the specification states about them and
    by further properties of the code.

    Modelling decisions.
    - Python numbers (the [float] fields of the dataclasses, and the [int]
      literals the tests pass for them) are exact rationals in canonical form
      ([Qc]): arithmetic does not round, [==] is Leibniz equality, and the
      only arithmetic failure is [ZeroDivisionError]. The properties of a
      sale are therefore stated with the tests and expressions of the code,
      in the order in which it evaluates them, and not with sums regrouped
      or fractions simplified.
    - [datetime] values are copied around by the engine and compared by the
      sort of [load_trades]; they are integers (a timestamp), so any two of
      them compare.
    - The [ProfitCalculator] instance is an explicit state record and the
      methods run in a state-and-exception monad over it, so that an
      exception leaves the fields as they were when it was raised.
    - A Python [dict] iterates in insertion order. [trades_by_ticker], whose
      iteration order decides the order of [realized_profits], is an
      association list in insertion order; [open_positions], which is only
      ever written and looked up, is a finite map.
    - [load_trades] is modelled from the rows of the data frame on: reading
      the file and converting a cell are outside, and a row carries what the
      conversions give, or that they raise. The message printed for a
      skipped row is not modelled. *)

From Stdlib Require Import QArith Qcanon Lqa Ascii.
From Stdlib Require Qcabs.
From stdpp Require Import base numbers list sorting strings gmap.

Local Open Scope Qc_scope.

(** ** models.py *)

Inductive TradeDirection := BUY | SELL.

Module Trade.
Record t := mk {
  date : Z;
  ticker : string;
  direction : TradeDirection;
  quantity : Qc;
  price : Qc;
  fee : Qc;
  amount : Qc;
  datetime_str : string
}.
End Trade.

Module Lot.
Record t := mk {
  date : Z;
  quantity : Qc;
  unit_cost : Qc;
  price_paid : Qc;
  fees_paid : Qc
}.

(** [lot.quantity = q]: the one field the engine assigns after creation. *)
Definition set_quantity (lot : t) (q : Qc) : t :=
  mk (date lot) q (unit_cost lot) (price_paid lot) (fees_paid lot).
End Lot.

Module ClosedTrade.
Record t := mk {
  ticker : string;
  date : Z;
  quantity : Qc;
  sell_price : Qc;
  sell_fees : Qc;
  cost_basis : Qc;
  realized_profit : Qc;
  sale_proceeds : Qc;
  method : string
}.
End ClosedTrade.

(** The dataclasses compare field by field. *)
Global Instance TradeDirection_eq_dec : EqDecision TradeDirection.
Proof. solve_decision. Defined.
Global Instance Trade_eq_dec : EqDecision Trade.t.
Proof. solve_decision. Defined.
Global Instance Lot_eq_dec : EqDecision Lot.t.
Proof. solve_decision. Defined.
Global Instance ClosedTrade_eq_dec : EqDecision ClosedTrade.t.
Proof. solve_decision. Defined.

(** ** calculator.py: the instance and its monad *)

Record ProfitCalculator := {
  trades : list Trade.t;
  fees_correction : Qc;
  realized_profits : list ClosedTrade.t;
  open_positions : gmap string (list Lot.t)
}.

(** [ProfitCalculator.__init__] *)
Definition __init__ : ProfitCalculator :=
  {| trades := []; fees_correction := 0;
     realized_profits := []; open_positions := ∅ |}.

Inductive exn := ZeroDivisionError | ValueError.

(** A method body: it reads and writes [self], and either returns a value or
    raises. *)
Definition M (A : Type) : Type :=
  ProfitCalculator → (exn + A) * ProfitCalculator.

Global Instance M_ret : MRet M := λ A a self, (inr a, self).
Global Instance M_bind : MBind M := λ A B f m self,
  match m self with
  | (inl e, self') => (inl e, self')
  | (inr a, self') => f a self'
  end.

Definition raise {A} (e : exn) : M A := λ self, (inl e, self).

Definition get_trades : M (list Trade.t) := λ self, (inr (trades self), self).

(** [self.realized_profits = v] *)
Definition set_realized_profits (v : list ClosedTrade.t) : M unit := λ self,
  (inr (), {| trades := trades self; fees_correction := fees_correction self;
              realized_profits := v; open_positions := open_positions self |}).

(** [self.open_positions = v] *)
Definition set_open_positions (v : gmap string (list Lot.t)) : M unit := λ self,
  (inr (), {| trades := trades self; fees_correction := fees_correction self;
              realized_profits := realized_profits self; open_positions := v |}).

(** [self.realized_profits.append(c)] *)
Definition append_realized_profit (c : ClosedTrade.t) : M unit := λ self,
  set_realized_profits (realized_profits self ++ [c]) self.

(** [self.open_positions[ticker] = ledger] *)
Definition store_open_position (ticker : string) (ledger : list Lot.t) : M unit :=
  λ self, set_open_positions (<[ticker := ledger]> (open_positions self)) self.

(** [for x in xs: acc = body(acc, x)], the loop-carried variables in [acc]. *)
Fixpoint for_each {A B} (body : B → A → M B) (acc : B) (xs : list A) : M B :=
  match xs with
  | [] => mret acc
  | x :: xs' => acc' ← body acc x; for_each body acc' xs'
  end.

(** ** Python primitives used by the engine *)

(** [x / y] *)
Definition py_div (x y : Qc) : M Qc :=
  if decide (y = 0) then raise ZeroDivisionError else mret (x / y).

(** [sum(xs)]: start at [0] and add the items from left to right. *)
Definition py_sum (xs : list Qc) : Qc := foldl Qcplus 0 xs.

(** [l.remove(x)]: delete the first item equal to [x]; [ValueError] when
    there is none. *)
Fixpoint list_remove (x : Lot.t) (l : list Lot.t) : M (list Lot.t) :=
  match l with
  | [] => raise ValueError
  | y :: l' =>
      if decide (y = x) then mret l'
      else l'' ← list_remove x l'; mret (y :: l'')
  end.

(** [if k not in d: d[k] = []] followed by [d[k].append(v)], on a dict kept
    in insertion order. *)
Fixpoint dict_append (k : string) (v : Trade.t)
    (d : list (string * list Trade.t)) : list (string * list Trade.t) :=
  match d with
  | [] => [(k, [v])]
  | (k', vs) :: d' =>
      if decide (k' = k) then (k', vs ++ [v]) :: d'
      else (k', vs) :: dict_append k v d'
  end.

(** ** calculator.py: the engine *)

(** The literal [1e-9]. *)
Definition eps : Qc := Q2Qc (1 # 1000000000).

(** The [while qty_to_sell > 0 and ledger] loop of the FIFO branch, on its
    three variables. After a partial consumption [qty_to_sell] is [0], the
    test [0 > 0] fails and the loop is left; every other iteration pops the
    head, so the recursion is on the ledger. *)
Fixpoint fifo_loop (qty_to_sell cost_basis : Qc) (ledger : list Lot.t)
    : Qc * Qc * list Lot.t :=
  match ledger with
  | [] => (qty_to_sell, cost_basis, [])
  | head_lot :: rest =>
      if decide (0 < qty_to_sell) then
        if decide (Lot.quantity head_lot ≤ qty_to_sell) then
          (* Consume entire lot *)
          fifo_loop (qty_to_sell - Lot.quantity head_lot)
                    (cost_basis + Lot.quantity head_lot * Lot.unit_cost head_lot)
                    rest
        else
          (* Consume partial lot *)
          (0,
           cost_basis + qty_to_sell * Lot.unit_cost head_lot,
           Lot.set_quantity head_lot (Lot.quantity head_lot - qty_to_sell) :: rest)
      else (qty_to_sell, cost_basis, ledger)
  end.

(** [for lot in ledger: lot.quantity *= ratio; if lot.quantity < 1e-9:
    to_remove.append(lot)]: the scaled ledger and [to_remove]. *)
Fixpoint scale_lots (ratio : Qc) (ledger : list Lot.t) : list Lot.t * list Lot.t :=
  match ledger with
  | [] => ([], [])
  | lot :: rest =>
      let lot' := Lot.set_quantity lot (Lot.quantity lot * ratio) in
      let '(ledger', to_remove) := scale_lots ratio rest in
      (lot' :: ledger', if decide (Lot.quantity lot' < eps) then lot' :: to_remove else to_remove)
  end.

Definition total_qty (ledger : list Lot.t) : Qc :=
  py_sum (Lot.quantity <$> ledger).
Definition total_cost (ledger : list Lot.t) : Qc :=
  py_sum ((λ l, Lot.quantity l * Lot.unit_cost l) <$> ledger).

(** The AVG branch: the cost basis and the ledger it leaves. *)
Definition avg_branch (qty_to_sell : Qc) (ledger : list Lot.t) : M (Qc * list Lot.t) :=
  let total_qty := total_qty ledger in
  let total_cost := total_cost ledger in
  if decide (0 < total_qty) then
    avg_unit_cost ← py_div total_cost total_qty;
    let cost_basis := qty_to_sell * avg_unit_cost in
    (* Reduce all lots proportionally *)
    ratio ← py_div (total_qty - qty_to_sell) total_qty;
    let '(ledger, to_remove) := scale_lots ratio ledger in
    ledger ← for_each (λ ledger lot, list_remove lot ledger) ledger to_remove;
    mret (cost_basis, ledger)
  else mret (0, ledger).

(** The method dispatch of the SELL branch; [cost_basis] starts at [0.0] and
    an unmatched [method] runs neither branch. *)
Definition consume (method : string) (qty_to_sell : Qc) (ledger : list Lot.t)
    : M (Qc * list Lot.t) :=
  if decide (method = "FIFO") then
    let '(_, cost_basis, ledger) := fifo_loop qty_to_sell 0 ledger in
    mret (cost_basis, ledger)
  else if decide (method = "AVG") then avg_branch qty_to_sell ledger
  else mret (0, ledger).

(** The lot a BUY appends, given its unit cost. *)
Definition lot_of_buy (trade : Trade.t) (unit_cost : Qc) : Lot.t :=
  Lot.mk (Trade.date trade) (Trade.quantity trade) unit_cost
         (Trade.price trade * Trade.quantity trade) (Trade.fee trade).

(** The record a SELL emits, given the cost basis of the consumed lots. *)
Definition close_trade (ticker method : string) (trade : Trade.t) (cost_basis : Qc)
    : ClosedTrade.t :=
  let sale_proceeds := Trade.price trade * Trade.quantity trade - Trade.fee trade in
  let realized_profit := sale_proceeds - cost_basis in
  ClosedTrade.mk ticker (Trade.date trade) (Trade.quantity trade) (Trade.price trade)
                 (Trade.fee trade) cost_basis realized_profit sale_proceeds method.

(** The body of [for trade in trades] in [_process_ticker]; the local
    [ledger] is the loop-carried variable. *)
Definition process_trade (ticker method : string) (ledger : list Lot.t)
    (trade : Trade.t) : M (list Lot.t) :=
  match Trade.direction trade with
  | BUY =>
      unit_cost ← py_div (Trade.price trade * Trade.quantity trade + Trade.fee trade)
                         (Trade.quantity trade);
      mret (ledger ++ [lot_of_buy trade unit_cost])
  | SELL =>
      '(cost_basis, ledger) ← consume method (Trade.quantity trade) ledger;
      append_realized_profit (close_trade ticker method trade cost_basis);;
      mret ledger
  end.

Definition _process_ticker (ticker : string) (trades : list Trade.t) (method : string)
    : M unit :=
  ledger ← for_each (process_trade ticker method) [] trades;
  store_open_position ticker ledger.

(** The grouping loop of [calculate]. *)
Definition group_by_ticker (trades : list Trade.t) : list (string * list Trade.t) :=
  foldl (λ d trade, dict_append (Trade.ticker trade) trade d) [] trades.

Definition calculate (method : string) : M unit :=
  set_realized_profits [];;
  set_open_positions ∅;;
  self_trades ← get_trades;
  let trades_by_ticker := group_by_ticker self_trades in
  for_each (λ _ '(ticker, ticker_trades), _process_ticker ticker ticker_trades method)
           () trades_by_ticker.

(** [get_total_profit] *)
Definition get_total_profit (self : ProfitCalculator) : Qc :=
  py_sum (ClosedTrade.realized_profit <$> realized_profits self).

(** ** calculator.py: [load_trades]

    [pd.read_excel] and the conversions of the cells are not modelled: a row
    of the data frame comes with what the calls on its cells give. Columns
    are assumed present and strings are ASCII. A number that [float]
    returns is an exact rational as everywhere else, and a date that is
    kept is a timestamp: NaN, infinities and NaT are left out, and so are
    the exceptions of [pd.read_excel] and of a missing Ticker column, which
    is read outside the [try]. *)

Module Row.
Record t := mk {
  (** [row['Date']] as a datetime, converted by [pd.to_datetime] when it is
      not one; [None] when that raises *)
  Date : option Z;
  (** [str(row['Date'])] *)
  Date_str : string;
  (** [None] when [pd.isna(row['Ticker'])], else [str(row['Ticker'])] *)
  Ticker : option string;
  (** [str(row['Direction'])] *)
  Direction : string;
  (** [float(row['Quantity'])] and the like; [None] when [float] raises *)
  Quantity : option Qc;
  Price : option Qc;
  Amount : option Qc;
  Fee : option Qc
}.
End Row.

(** [c.isspace()] on an ASCII character *)
Definition py_isspace (c : ascii) : bool :=
  match c with
  | "009" | "010" | "011" | "012" | "013"
  | "028" | "029" | "030" | "031" | " " => true
  | _ => false
  end%char.

Fixpoint py_lstrip (s : list ascii) : list ascii :=
  match s with
  | [] => []
  | c :: s' => if py_isspace c then py_lstrip s' else s
  end.

(** [s.strip()] *)
Definition py_strip (s : list ascii) : list ascii :=
  reverse (py_lstrip (reverse (py_lstrip s))).

(** [s.lower()] on ASCII characters *)
Definition ascii_lower (c : ascii) : ascii :=
  let n := N_of_ascii c in
  if ((65 <=? n) && (n <=? 90))%N then ascii_of_N (n + 32) else c.
Definition py_lower (s : list ascii) : list ascii := ascii_lower <$> s.

(** [sub in s] *)
Fixpoint py_in (sub s : list ascii) : bool :=
  bool_decide (sub `prefix_of` s) ||
  match s with
  | [] => false
  | _ :: s' => py_in sub s'
  end.

(** [TradeDirection.BUY if 'buy' in direction_str else TradeDirection.SELL],
    with [direction_str = str(row['Direction']).strip().lower()] *)
Definition parse_direction (direction : string) : TradeDirection :=
  let direction_str :=
    py_lower (py_strip (String.list_ascii_of_string direction)) in
  if py_in (String.list_ascii_of_string "buy") direction_str then BUY else SELL.

(** The [try] block for one row: the trade it appends, or [None] when a
    conversion raises and [except Exception] skips the row. *)
Definition row_to_trade (ticker : string) (row : Row.t) : option Trade.t :=
  date_val ← Row.Date row;
  let direction := parse_direction (Row.Direction row) in
  quantity ← Row.Quantity row;
  price ← Row.Price row;
  fee ← Row.Fee row;
  amount ← Row.Amount row;
  Some (Trade.mk date_val ticker direction (Qcabs.Qcabs quantity) price
                 (Qcabs.Qcabs fee) (Qcabs.Qcabs amount) (Row.Date_str row)).

(** The body of [for _, row in df.iterrows()], on the local [trades]. *)
Definition read_row (trades : list Trade.t) (row : Row.t) : list Trade.t :=
  match Row.Ticker row with
  | None => trades
  | Some ticker =>
      match row_to_trade ticker row with
      | Some trade => trades ++ [trade]
      | None => trades
      end
  end.

(** [sorted(trades, key=lambda x: x.date)]. [sorted] is stable, and the
    list that a stable sort returns does not depend on how it sorts (see
    [stable_sort_unique]); this is insertion from the right. *)
Fixpoint insert_by_date (trade : Trade.t) (l : list Trade.t) : list Trade.t :=
  match l with
  | [] => [trade]
  | x :: l' =>
      if decide (Trade.date trade ≤ Trade.date x)%Z then trade :: l
      else x :: insert_by_date trade l'
  end.
Definition sorted_by_date (l : list Trade.t) : list Trade.t :=
  foldr insert_by_date [] l.

(** [self.trades = v] *)
Definition set_trades (v : list Trade.t) : M unit := λ self,
  (inr (), {| trades := v; fees_correction := fees_correction self;
              realized_profits := realized_profits self;
              open_positions := open_positions self |}).

(** [load_trades], on the rows that [pd.read_excel(file_path)] gives. *)
Definition load_trades (rows : list Row.t) : M unit :=
  let trades := foldl read_row [] rows in
  (* Sort by date *)
  set_trades (sorted_by_date trades).

(** * Vocabulary of the properties *)

(** ** Running a method body *)

(** The outcome of a body run from a fresh instance, and what it appended to
    [realized_profits] there. *)
Definition outcome {A} (m : M A) : exn + A := (m __init__).1.
Definition emitted {A} (m : M A) : list ClosedTrade.t :=
  realized_profits (m __init__).2.

(** [self] with [cs] appended to [realized_profits]. *)
Definition emit (cs : list ClosedTrade.t) (self : ProfitCalculator) : ProfitCalculator :=
  {| trades := trades self; fees_correction := fees_correction self;
     realized_profits := realized_profits self ++ cs;
     open_positions := open_positions self |}.

(** [self] with [ledger] stored under [ticker] in [open_positions]. *)
Definition store (ticker : string) (ledger : list Lot.t) (self : ProfitCalculator)
    : ProfitCalculator :=
  {| trades := trades self; fees_correction := fees_correction self;
     realized_profits := realized_profits self;
     open_positions := <[ticker := ledger]> (open_positions self) |}.

(** [self] with the two fields that [calculate] writes. *)
Definition result (self : ProfitCalculator) (cs : list ClosedTrade.t)
    (o : gmap string (list Lot.t)) : ProfitCalculator :=
  {| trades := trades self; fees_correction := fees_correction self;
     realized_profits := cs; open_positions := o |}.

(** A body is [pure] when it leaves [self] alone and does not read it, and
    [emits] when all it does to [self] is append to [realized_profits],
    again without reading it. *)
Definition pure {A} (m : M A) : Prop := ∀ self, m self = (outcome m, self).
Definition emits {A} (m : M A) : Prop :=
  ∀ self, m self = (outcome m, emit (emitted m) self).

Global Instance exn_eq_dec : EqDecision exn.
Proof. solve_decision. Defined.

(** ** Trades *)

Definition is_buy (trade : Trade.t) : Prop := Trade.direction trade = BUY.
Definition is_sell (trade : Trade.t) : Prop := Trade.direction trade = SELL.
Definition has_ticker (k : string) (trade : Trade.t) : Prop := Trade.ticker trade = k.

Global Instance is_buy_dec trade : Decision (is_buy trade).
Proof. unfold is_buy. apply _. Defined.
Global Instance is_sell_dec trade : Decision (is_sell trade).
Proof. unfold is_sell. apply _. Defined.
Global Instance has_ticker_dec k trade : Decision (has_ticker k trade).
Proof. unfold has_ticker. apply _. Defined.

(** The invariant of a trade record: positive quantity, non-negative price
    and fee. *)
Definition valid (trade : Trade.t) : Prop :=
  0 < Trade.quantity trade ∧ 0 ≤ Trade.price trade ∧ 0 ≤ Trade.fee trade.

Global Instance valid_dec trade : Decision (valid trade).
Proof. unfold valid. apply _. Defined.

(** A BUY of quantity zero is the one trade that makes the engine raise. *)
Definition divisible (trade : Trade.t) : Prop :=
  Trade.direction trade = BUY → Trade.quantity trade ≠ 0.

(** A BUY of at least [eps]. *)
Definition sizeable (trade : Trade.t) : Prop :=
  is_buy trade → eps ≤ Trade.quantity trade.

(** The unit cost a BUY computes when its quantity is not zero. *)
Definition buy_unit_cost (trade : Trade.t) : Qc :=
  (Trade.price trade * Trade.quantity trade + Trade.fee trade) / Trade.quantity trade.

(** The lots that the BUY trades among [trades] create, in order. *)
Definition bought (trades : list Trade.t) : list Lot.t :=
  (λ trade, lot_of_buy trade (buy_unit_cost trade)) <$> filter is_buy trades.

(** [lot] is as a BUY among [trades] created it. *)
Definition as_bought (trades : list Trade.t) (lot : Lot.t) : Prop :=
  ∃ trade, trade ∈ trades ∧ is_buy trade ∧
           lot = lot_of_buy trade (buy_unit_cost trade).

(** ** Lots and ledgers *)

(** [lot.quantity *= ratio] *)
Definition scale (ratio : Qc) (lot : Lot.t) : Lot.t :=
  Lot.set_quantity lot (Lot.quantity lot * ratio).

(** The test of the cleanup, [lot.quantity < 1e-9], and its negation. *)
Definition below_eps (lot : Lot.t) : Prop := Lot.quantity lot < eps.
Definition clean (lot : Lot.t) : Prop := ¬ below_eps lot.

(** A lot that holds a positive quantity. *)
Definition held (lot : Lot.t) : Prop := 0 < Lot.quantity lot.

(** [new] is [old] with a quantity that is not larger, and nothing else
    changed. *)
Definition reduced (old new : Lot.t) : Prop :=
  Lot.date new = Lot.date old ∧
  Lot.unit_cost new = Lot.unit_cost old ∧
  Lot.price_paid new = Lot.price_paid old ∧
  Lot.fees_paid new = Lot.fees_paid old ∧
  Lot.quantity new ≤ Lot.quantity old.

(** [new] is what is left of the ledger [old]: some lots were removed, the
    others are still there, in order, each one [reduced]. *)
Inductive shrinks : list Lot.t → list Lot.t → Prop :=
  | shrinks_nil : shrinks [] []
  | shrinks_removed lot old new : shrinks old new → shrinks (lot :: old) new
  | shrinks_kept lot lot' old new :
      reduced lot lot' → shrinks old new → shrinks (lot :: old) (lot' :: new).

(** ** One security *)

(** What a SELL consumes: the cost basis and the ledger left. (The default
    is never taken: the SELL branch does not raise.) *)
Definition consumed (method : string) (qty_to_sell : Qc) (ledger : list Lot.t)
    : Qc * list Lot.t :=
  match outcome (consume method qty_to_sell ledger) with
  | inr r => r
  | inl _ => (0, ledger)
  end.

(** The ledger [_process_ticker] holds after the loop over [trades] (or the
    exception that ended it), and the records the loop appended, starting
    from [ledger]. *)
Definition ledger_after (ticker method : string) (ledger : list Lot.t)
    (trades : list Trade.t) : exn + list Lot.t :=
  outcome (for_each (process_trade ticker method) ledger trades).
Definition closed_by (ticker method : string) (ledger : list Lot.t)
    (trades : list Trade.t) : list ClosedTrade.t :=
  emitted (for_each (process_trade ticker method) ledger trades).

(** The ledger stored for the security when the loop returns. *)
Definition ledger_of (ticker method : string) (trades : list Trade.t) : list Lot.t :=
  match ledger_after ticker method [] trades with
  | inr ledger => ledger
  | inl _ => []
  end.

(** What a ClosedTrade copies from the SELL it closes. *)
Definition sale (ticker method : string) (trade : Trade.t)
    : string * Z * Qc * Qc * Qc * string :=
  (ticker, Trade.date trade, Trade.quantity trade, Trade.price trade,
   Trade.fee trade, method).
Definition sale_of (c : ClosedTrade.t) : string * Z * Qc * Qc * Qc * string :=
  (ClosedTrade.ticker c, ClosedTrade.date c, ClosedTrade.quantity c,
   ClosedTrade.sell_price c, ClosedTrade.sell_fees c, ClosedTrade.method c).

Definition closed_for (k : string) (c : ClosedTrade.t) : Prop :=
  ClosedTrade.ticker c = k.

Global Instance closed_for_dec k c : Decision (closed_for k c).
Proof. unfold closed_for. apply _. Defined.

(** ** The whole call *)

(** The securities of [l], each once, in order of first appearance: the
    keys of [trades_by_ticker]. *)
Definition tickers (l : list Trade.t) : list string :=
  foldl (λ ks trade,
           if decide (Trade.ticker trade ∈ ks) then ks else ks ++ [Trade.ticker trade])
        [] l.

(** The loop over [trades_by_ticker.items()]. *)
Definition process_groups (method : string) (groups : list (string * list Trade.t))
    : M unit :=
  for_each (λ _ '(ticker, ticker_trades), _process_ticker ticker ticker_trades method)
           () groups.

(** The records of all securities, security by security in order of first
    appearance, and the ledgers stored for them. *)
Definition realized_of (method : string) (l : list Trade.t) : list ClosedTrade.t :=
  concat ((λ k, closed_by k method [] (filter (has_ticker k) l)) <$> tickers l).
Definition open_of (method : string) (l : list Trade.t) : gmap string (list Lot.t) :=
  foldl (λ o k, <[k := ledger_of k method (filter (has_ticker k) l)]> o) ∅ (tickers l).

(** Every security's loop returns. *)
Definition completes (method : string) (l : list Trade.t) : Prop :=
  ∀ k, k ∈ tickers l →
       ∃ ledger, ledger_after k method [] (filter (has_ticker k) l) = inr ledger.

(** [l] is a merge of [l1] and [l2] that keeps the order within each. *)
Inductive interleaving {A} : list A → list A → list A → Prop :=
  | interleaving_nil : interleaving [] [] []
  | interleaving_left x l1 l2 l :
      interleaving l1 l2 l → interleaving (x :: l1) l2 (x :: l)
  | interleaving_right x l1 l2 l :
      interleaving l1 l2 l → interleaving l1 (x :: l2) (x :: l).

(** ** Three statements of the specification that the engine does not meet *)

(** For the call [calculate method] on [self]: it raises and leaves neither
    records nor open positions. *)
Definition rejected (method : string) (self : ProfitCalculator) : Prop :=
  ∃ e self', calculate method self = (inl e, self') ∧
             realized_profits self' = [] ∧ open_positions self' = ∅.

(** For one SELL that finds [ledger]: the ledger is emptied and the emitted
    record carries the cost of what was held. *)
Definition matched_only (ticker method : string) (ledger : list Lot.t)
    (trade : Trade.t) : Prop :=
  outcome (process_trade ticker method ledger trade) = inr [] ∧
  emitted (process_trade ticker method ledger trade)
  = [close_trade ticker method trade (total_cost ledger)].

(** For the open-position output: no lot below [eps] is in it. *)
Definition no_dust (self : ProfitCalculator) : Prop :=
  ∀ k lots, open_positions self !! k = Some lots → Forall clean lots.

(** ** Fixtures *)

(** [create_trade] of tests/test_calculator.py, on whole numbers. *)
Definition create_trade (date : Z) (ticker : string) (direction : TradeDirection)
    (qty price fee : Z) : Trade.t :=
  Trade.mk date ticker direction (Qc_of_Z qty) (Qc_of_Z price) (Qc_of_Z fee)
           (Qc_of_Z qty * Qc_of_Z price) EmptyString.

(** [calculator.trades = l] on a fresh instance. *)
Definition with_trades (l : list Trade.t) : ProfitCalculator :=
  {| trades := l; fees_correction := 0; realized_profits := []; open_positions := ∅ |}.

(** The trades of [test_fifo_multiple_buys] and [test_avg_cost]. *)
Definition two_buys : list Trade.t :=
  [create_trade 1 "AAPL" BUY 10 100 0; create_trade 2 "AAPL" BUY 10 200 0].
Definition two_buys_one_sell : list Trade.t :=
  two_buys ++ [create_trade 3 "AAPL" SELL 15 180 0].

(** The second lot of those tests, of which the FIFO sale takes five
    units. *)
Definition second_lot : Lot.t :=
  Lot.mk 2 (Qc_of_Z 10) (Qc_of_Z 200) (Qc_of_Z 2000) 0.

(** The trades of [test_fifo_simple]: they consume the security's only lot
    entirely. *)
Definition buy_then_sell_all : list Trade.t :=
  [create_trade 1 "AAPL" BUY 10 100 5; create_trade 2 "AAPL" SELL 10 150 5].

(** A sale of a security that was never bought, next to a purchase of
    another one. *)
Definition sell_without_buy : list Trade.t :=
  [create_trade 1 "MSFT" SELL 3 300 0; create_trade 2 "AAPL" BUY 10 100 0].

(** The ledger after BUY 10 @ 100, and a SELL of 15 @ 180 against it. *)
Definition ten_held : list Lot.t :=
  ledger_of "AAPL" "AVG" [create_trade 1 "AAPL" BUY 10 100 0].
Definition sell_fifteen : Trade.t := create_trade 2 "AAPL" SELL 15 180 0.

(** BUY 1 @ 100, then SELL 0.9999999999 @ 100. *)
Definition nearly_all_sold : list Trade.t :=
  [create_trade 1 "AAPL" BUY 1 100 0;
   Trade.mk 2 "AAPL" SELL (Q2Qc (9999999999 # 10000000000)) (Qc_of_Z 100) 0
            (Q2Qc (9999999999 # 100000000)) EmptyString].

(** Trades of a second security, and a merge with those of the first. *)
Definition other_security : list Trade.t :=
  [create_trade 2 "MSFT" BUY 1 300 0; create_trade 4 "MSFT" SELL 1 310 0].
Definition two_securities : list Trade.t :=
  [create_trade 1 "AAPL" BUY 10 100 0; create_trade 2 "MSFT" BUY 1 300 0;
   create_trade 2 "AAPL" BUY 10 200 0; create_trade 3 "AAPL" SELL 15 180 0;
   create_trade 4 "MSFT" SELL 1 310 0].

(** ** Tactics *)

(** Closes a goal between closed terms by running its decision procedure. *)
Ltac by_computation := apply (bool_decide_unpack _); vm_compute; exact I.

(** Moves a goal on canonical rationals to the rationals under them, where
    [lra] and [nra] apply. *)
Ltac qc2q :=
  unfold Qcle, Qclt, Qcdiv, Qcminus in *;
  unfold Qcplus, Qcmult, Qcinv, Qcopp, Q2Qc in *; cbn [this] in *;
  repeat (setoid_rewrite Qred_correct);
  repeat match goal with
         | H : _ |- _ => progress (setoid_rewrite Qred_correct in H)
         end.

(** ** Further vocabulary *)

(** A BUY of quantity zero. *)
Definition zero_buy (trade : Trade.t) : Prop :=
  is_buy trade ∧ Trade.quantity trade = 0.

Global Instance zero_buy_dec trade : Decision (zero_buy trade).
Proof. unfold zero_buy. apply _. Defined.

(** A BUY of quantity zero for one security, one unit of another sold
    before it and one bought after it. *)
Definition zero_buy_in_the_middle : list Trade.t :=
  [create_trade 1 "MSFT" SELL 1 300 0; create_trade 2 "AAPL" SELL 1 100 0;
   create_trade 3 "AAPL" BUY 0 100 0; create_trade 4 "TSLA" BUY 1 200 0].

(** The ledger after the two purchases of the tests. *)
Definition twenty_held : list Lot.t := ledger_of "AAPL" "AVG" two_buys.

(** What a SELL brings in, fees deducted. *)
Definition proceeds (trade : Trade.t) : Qc :=
  Trade.price trade * Trade.quantity trade - Trade.fee trade.

(** The FIFO loop, started with [qty_to_sell], pops every lot of [sold]: at
    each lot something is left to sell and the lot is not larger than
    that. *)
Fixpoint exhausts (qty_to_sell : Qc) (sold : list Lot.t) : Prop :=
  match sold with
  | [] => True
  | lot :: rest =>
      0 < qty_to_sell ∧ Lot.quantity lot ≤ qty_to_sell ∧
      exhausts (qty_to_sell - Lot.quantity lot) rest
  end.

Global Instance exhausts_dec qty_to_sell sold : Decision (exhausts qty_to_sell sold).
Proof. revert qty_to_sell. induction sold; intros; simpl; apply _. Defined.

(** What the loop has left to sell, and the cost basis it has accumulated,
    after popping the lots of [sold]: [qty_to_sell -= head_lot.quantity] and
    [cost_basis += head_lot.quantity * head_lot.unit_cost], lot after lot. *)
Definition left_to_sell (qty_to_sell : Qc) (sold : list Lot.t) : Qc :=
  foldl (λ qty lot, qty - Lot.quantity lot) qty_to_sell sold.
Definition accrued (cost_basis : Qc) (sold : list Lot.t) : Qc :=
  foldl (λ cost lot, cost + Lot.quantity lot * Lot.unit_cost lot) cost_basis sold.

(** A record as [_process_ticker] builds it: the proceeds are the price
    times the quantity minus the fee of the sale, and the profit is the
    proceeds minus the cost basis. *)
Definition consistent (c : ClosedTrade.t) : Prop :=
  ClosedTrade.sale_proceeds c
  = ClosedTrade.sell_price c * ClosedTrade.quantity c - ClosedTrade.sell_fees c ∧
  ClosedTrade.realized_profit c
  = ClosedTrade.sale_proceeds c - ClosedTrade.cost_basis c.

(** Two securities whose sales come in the opposite order of their first
    purchases. *)
Definition crossed_sales : list Trade.t :=
  [create_trade 1 "AAPL" BUY 10 100 0; create_trade 2 "MSFT" BUY 5 300 0;
   create_trade 3 "MSFT" SELL 5 310 0; create_trade 4 "AAPL" SELL 10 120 0].

(** ** Loading *)

(** What a row of the file contributes: its trade, or nothing when the
    ticker is missing or a conversion raises. *)
Definition trade_of_row (row : Row.t) : option Trade.t :=
  ticker ← Row.Ticker row; row_to_trade ticker row.

(** The order [sorted] puts trades and lots in. *)
Definition by_date (a b : Trade.t) : Prop := (Trade.date a ≤ Trade.date b)%Z.
Definition lot_by_date (a b : Lot.t) : Prop := (Lot.date a ≤ Lot.date b)%Z.
Definition on_date (d : Z) (trade : Trade.t) : Prop := Trade.date trade = d.

Global Instance by_date_dec : RelDecision by_date.
Proof. intros a b. unfold by_date. apply _. Defined.
Global Instance lot_by_date_dec : RelDecision lot_by_date.
Proof. intros a b. unfold lot_by_date. apply _. Defined.
Global Instance on_date_dec d trade : Decision (on_date d trade).
Proof. unfold on_date. apply _. Defined.

(** A row that loads as a BUY of quantity zero. *)
Definition zero_buy_row (row : Row.t) : Prop :=
  is_Some (trade_of_row row) ∧ parse_direction (Row.Direction row) = BUY ∧
  (Row.Quantity row = Some 0).

(** The characters of a string, and the three letters of the direction
    test in either case. *)
Definition chars (s : string) : list ascii := String.list_ascii_of_string s.
Definition spells_buy (b u y : ascii) : Prop :=
  (b = "b" ∨ b = "B")%char ∧ (u = "u" ∨ u = "U")%char ∧ (y = "y" ∨ y = "Y")%char.

(** Rows of a file: a sale dated after the purchase but listed before it,
    a row without ticker, a row whose fee is not a number, and amounts with
    the sign of the cash flow. *)
Definition example_rows : list Row.t :=
  [Row.mk (Some 5%Z) "05.01.2024" (Some "AAPL") " Sell " (Some (Qc_of_Z (-4)))
          (Some (Qc_of_Z 120)) (Some (Qc_of_Z 480)) (Some (Qc_of_Z (-1)));
   Row.mk (Some 2%Z) "02.01.2024" None "Buy" (Some (Qc_of_Z 1))
          (Some (Qc_of_Z 1)) (Some (Qc_of_Z 1)) (Some 0);
   Row.mk (Some 3%Z) "03.01.2024" (Some "AAPL") "Buy" (Some (Qc_of_Z 1))
          (Some (Qc_of_Z 1)) (Some (Qc_of_Z 1)) None;
   Row.mk (Some 2%Z) "02.01.2024" (Some "AAPL") " buy" (Some (Qc_of_Z 5))
          (Some (Qc_of_Z 110)) (Some (Qc_of_Z (-550))) (Some (Qc_of_Z (-1)));
   Row.mk (Some 1%Z) "01.01.2024" (Some "AAPL") "BUY" (Some (Qc_of_Z 10))
          (Some (Qc_of_Z 100)) (Some (Qc_of_Z (-1000))) (Some (Qc_of_Z (-2)))].

(** The same file with a purchase of nothing. *)
Definition rows_with_zero_buy : list Row.t :=
  example_rows ++
  [Row.mk (Some 4%Z) "04.01.2024" (Some "MSFT") "buy" (Some 0)
          (Some (Qc_of_Z 300)) (Some 0) (Some 0)].

(** * Reasoning about method bodies *)

Lemma emit_nil self : emit [] self = self.
Proof. destruct self. unfold emit. simpl. by rewrite app_nil_r. Qed.

Lemma emit_emit cs1 cs2 self : emit cs2 (emit cs1 self) = emit (cs1 ++ cs2) self.
Proof. unfold emit. simpl. by rewrite app_assoc. Qed.

Lemma bind_run {A B} (m : M A) (f : A → M B) self :
  (m ≫= f) self =
  match m self with
  | (inl e, self') => (inl e, self')
  | (inr a, self') => f a self'
  end.
Proof. reflexivity. Qed.

Lemma pure_ret {A} (a : A) : pure (mret a).
Proof. by intros self. Qed.

Lemma pure_raise {A} e : pure (@raise A e).
Proof. by intros self. Qed.

Lemma pure_bind {A B} (m : M A) (f : A → M B) :
  pure m → (∀ a, pure (f a)) → pure (m ≫= f).
Proof.
  intros Hm Hf self. unfold outcome. rewrite !bind_run, (Hm self), (Hm __init__).
  destruct (outcome m) as [e|a]; [done|].
  by rewrite (Hf a self), (Hf a __init__).
Qed.

Lemma pure_for_each {A B} (body : B → A → M B) xs :
  (∀ acc x, pure (body acc x)) → ∀ acc, pure (for_each body acc xs).
Proof.
  intros Hbody. induction xs as [|x xs IH]; intros acc; simpl.
  - apply pure_ret.
  - apply pure_bind; auto.
Qed.

Lemma pure_emitted {A} (m : M A) : pure m → emitted m = [].
Proof. intros Hm. unfold emitted. by rewrite (Hm __init__). Qed.

Lemma pure_emits {A} (m : M A) : pure m → emits m.
Proof.
  intros Hm self. rewrite (pure_emitted m Hm), emit_nil. apply Hm.
Qed.

Lemma emits_bind {A B} (m : M A) (f : A → M B) :
  emits m → (∀ a, emits (f a)) → emits (m ≫= f).
Proof.
  intros Hm Hf self. unfold outcome, emitted.
  rewrite !bind_run, (Hm self), (Hm __init__).
  destruct (outcome m) as [e|a]; [done|].
  rewrite (Hf a (emit _ self)), (Hf a (emit _ __init__)). simpl.
  by rewrite emit_emit.
Qed.

Lemma emits_for_each {A B} (body : B → A → M B) xs :
  (∀ acc x, emits (body acc x)) → ∀ acc, emits (for_each body acc xs).
Proof.
  intros Hbody. induction xs as [|x xs IH]; intros acc; simpl.
  - apply pure_emits, pure_ret.
  - apply emits_bind; auto.
Qed.

Lemma outcome_bind {A B} (m : M A) (f : A → M B) :
  pure m →
  outcome (m ≫= f) = match outcome m with inl e => inl e | inr a => outcome (f a) end.
Proof.
  intros Hm. unfold outcome at 1. rewrite bind_run, (Hm __init__).
  by destruct (outcome m).
Qed.

Lemma pure_py_div x y : pure (py_div x y).
Proof. unfold py_div. case_decide; [apply pure_raise | apply pure_ret]. Qed.

Lemma outcome_py_div x y : y ≠ 0 → outcome (py_div x y) = inr (x / y).
Proof. intros Hy. unfold py_div. by case_decide. Qed.

Lemma pure_list_remove x l : pure (list_remove x l).
Proof.
  induction l as [|y l IH]; simpl.
  - apply pure_raise.
  - case_decide; [apply pure_ret|].
    apply pure_bind; [done|]. intros. apply pure_ret.
Qed.

Lemma pure_remove_all ledger to_remove :
  pure (for_each (λ ledger lot, list_remove lot ledger) ledger to_remove).
Proof. apply pure_for_each. intros. apply pure_list_remove. Qed.

Lemma pure_avg_branch qty_to_sell ledger : pure (avg_branch qty_to_sell ledger).
Proof.
  unfold avg_branch. case_decide; [|apply pure_ret].
  apply pure_bind; [apply pure_py_div|]. intros avg_unit_cost.
  apply pure_bind; [apply pure_py_div|]. intros ratio.
  destruct (scale_lots ratio ledger) as [ledger' to_remove].
  apply pure_bind; [apply pure_remove_all|]. intros. apply pure_ret.
Qed.

Lemma pure_consume method qty_to_sell ledger : pure (consume method qty_to_sell ledger).
Proof.
  unfold consume. case_decide.
  - destruct (fifo_loop _ _ _) as [[? ?] ?]. apply pure_ret.
  - case_decide; [apply pure_avg_branch | apply pure_ret].
Qed.

Lemma emits_append_realized_profit c : emits (append_realized_profit c).
Proof. by intros self. Qed.

Lemma emits_process_trade ticker method ledger trade :
  emits (process_trade ticker method ledger trade).
Proof.
  unfold process_trade. destruct (Trade.direction trade).
  - apply pure_emits, pure_bind; [apply pure_py_div|]. intros. apply pure_ret.
  - apply emits_bind; [apply pure_emits, pure_consume|]. intros [cost_basis ledger'].
    apply emits_bind; [apply emits_append_realized_profit|].
    intros. apply pure_emits, pure_ret.
Qed.

Lemma emits_process_trades ticker method ledger trades :
  emits (for_each (process_trade ticker method) ledger trades).
Proof. apply emits_for_each. intros. apply emits_process_trade. Qed.

(** ** The epsilon cleanup of the AVG branch is a filter *)

Lemma scale_lots_eq ratio ledger :
  scale_lots ratio ledger =
  (scale ratio <$> ledger, filter below_eps (scale ratio <$> ledger)).
Proof.
  induction ledger as [|lot rest IH]; simpl; [done|].
  rewrite IH, filter_cons.
  destruct (decide (below_eps (scale ratio lot))) as [Hlt|Hlt];
    unfold below_eps, scale in Hlt; simpl in Hlt.
  - by rewrite decide_True.
  - by rewrite decide_False.
Qed.

Lemma outcome_list_remove_app x pre l :
  x ∉ pre → outcome (list_remove x (pre ++ x :: l)) = inr (pre ++ l).
Proof.
  induction pre as [|y pre IH]; intros Hx; simpl.
  - by rewrite decide_True.
  - rewrite decide_False by set_solver.
    rewrite outcome_bind by apply pure_list_remove.
    rewrite IH by set_solver. done.
Qed.

Lemma outcome_remove_all (P : Lot.t → Prop) `{!∀ x, Decision (P x)} l pre :
  Forall (λ x, ¬ P x) pre →
  outcome (for_each (λ ledger lot, list_remove lot ledger) (pre ++ l) (filter P l))
  = inr (pre ++ filter (λ x, ¬ P x) l).
Proof.
  revert pre. induction l as [|x l IH]; intros pre Hpre.
  - done.
  - rewrite !filter_cons. destruct (decide (P x)) as [HP|HP].
    + rewrite decide_False by tauto. simpl.
      rewrite outcome_bind by apply pure_list_remove.
      rewrite outcome_list_remove_app.
      * by apply IH.
      * intros Hin. rewrite Forall_forall in Hpre. by apply (Hpre x).
    + rewrite decide_True by done.
      replace (pre ++ x :: l) with ((pre ++ [x]) ++ l) by by rewrite <-app_assoc.
      rewrite IH.
      * by rewrite <-app_assoc.
      * apply Forall_app. split; [done|]. by apply Forall_singleton.
Qed.

(** With positive total quantity the AVG branch returns normally: the whole
    sold quantity at average cost, and the scaled lots that are not below
    [eps]. *)
Lemma outcome_avg_branch qty_to_sell ledger :
  0 < total_qty ledger →
  outcome (avg_branch qty_to_sell ledger) =
  inr (qty_to_sell * (total_cost ledger / total_qty ledger),
       filter (λ lot, ¬ below_eps lot)
              (scale ((total_qty ledger - qty_to_sell) / total_qty ledger) <$> ledger)).
Proof.
  intros Hpos. unfold avg_branch. rewrite decide_True by done.
  assert (total_qty ledger ≠ 0) as Hne.
  { intros Heq. rewrite Heq in Hpos. by apply Qclt_not_eq in Hpos. }
  rewrite outcome_bind, outcome_py_div by (done || apply pure_py_div).
  rewrite outcome_bind, outcome_py_div by (done || apply pure_py_div).
  rewrite scale_lots_eq.
  rewrite outcome_bind by apply pure_remove_all.
  pose proof (outcome_remove_all below_eps
    (scale ((total_qty ledger - qty_to_sell) / total_qty ledger) <$> ledger) []
    (Forall_nil_2 _)) as Hrm.
  simpl in Hrm. by rewrite Hrm.
Qed.

Lemma outcome_avg_branch_empty qty_to_sell ledger :
  ¬ 0 < total_qty ledger → outcome (avg_branch qty_to_sell ledger) = inr (0, ledger).
Proof. intros Hpos. unfold avg_branch. by rewrite decide_False. Qed.

(** ** Outcome and output of sequenced bodies *)

Lemma outcome_bind_emits {A B} (m : M A) (f : A → M B) :
  emits m → (∀ a, emits (f a)) →
  outcome (m ≫= f) = match outcome m with inl e => inl e | inr a => outcome (f a) end.
Proof.
  intros Hm Hf. unfold outcome at 1. rewrite bind_run, (Hm __init__).
  destruct (outcome m) as [e|a]; [done|]. by rewrite (Hf a).
Qed.

Lemma emitted_bind {A B} (m : M A) (f : A → M B) :
  emits m → (∀ a, emits (f a)) →
  emitted (m ≫= f) =
  emitted m ++ match outcome m with inl e => [] | inr a => emitted (f a) end.
Proof.
  intros Hm Hf. unfold emitted at 1. rewrite bind_run, (Hm __init__).
  destruct (outcome m) as [e|a]; simpl; [by rewrite app_nil_r|].
  by rewrite (Hf a).
Qed.

Lemma outcome_for_each_cons {A B} (body : B → A → M B) acc x xs :
  (∀ acc x, emits (body acc x)) →
  outcome (for_each body acc (x :: xs)) =
  match outcome (body acc x) with
  | inl e => inl e
  | inr acc' => outcome (for_each body acc' xs)
  end.
Proof.
  intros Hbody. simpl. apply outcome_bind_emits; [done|].
  intros. by apply emits_for_each.
Qed.

Lemma emitted_for_each_cons {A B} (body : B → A → M B) acc x xs :
  (∀ acc x, emits (body acc x)) →
  emitted (for_each body acc (x :: xs)) =
  emitted (body acc x) ++
  match outcome (body acc x) with
  | inl e => []
  | inr acc' => emitted (for_each body acc' xs)
  end.
Proof.
  intros Hbody. simpl. apply emitted_bind; [done|].
  intros. by apply emits_for_each.
Qed.

(** ** One trade *)

(** The SELL branch never raises. *)
Lemma consume_returns method qty_to_sell ledger :
  ∃ cost_basis ledger',
    outcome (consume method qty_to_sell ledger) = inr (cost_basis, ledger').
Proof.
  unfold consume. case_decide.
  - destruct (fifo_loop _ _ _) as [[? cb] l]. by exists cb, l.
  - case_decide; [|by eexists _, _].
    destruct (decide (0 < total_qty ledger)).
    + rewrite outcome_avg_branch by done. by eexists _, _.
    + rewrite outcome_avg_branch_empty by done. by eexists _, _.
Qed.

Lemma outcome_consume method qty_to_sell ledger :
  outcome (consume method qty_to_sell ledger) = inr (consumed method qty_to_sell ledger).
Proof.
  unfold consumed.
  by destruct (consume_returns method qty_to_sell ledger) as (cb & l & ->).
Qed.

Lemma outcome_process_buy ticker method ledger trade :
  Trade.direction trade = BUY → Trade.quantity trade ≠ 0 →
  outcome (process_trade ticker method ledger trade)
  = inr (ledger ++ [lot_of_buy trade (buy_unit_cost trade)]).
Proof.
  intros Hdir Hq. unfold process_trade. rewrite Hdir.
  rewrite outcome_bind by apply pure_py_div.
  by rewrite outcome_py_div.
Qed.

Lemma outcome_process_zero_buy ticker method ledger trade :
  Trade.direction trade = BUY → Trade.quantity trade = 0 →
  outcome (process_trade ticker method ledger trade) = inl ZeroDivisionError.
Proof.
  intros Hdir Hq. unfold process_trade. rewrite Hdir.
  rewrite outcome_bind by apply pure_py_div.
  unfold py_div. by rewrite decide_True.
Qed.

Lemma emitted_process_buy ticker method ledger trade :
  Trade.direction trade = BUY →
  emitted (process_trade ticker method ledger trade) = [].
Proof.
  intros Hdir. unfold process_trade. rewrite Hdir.
  apply pure_emitted, pure_bind; [apply pure_py_div|]. intros. apply pure_ret.
Qed.

Lemma outcome_process_sell ticker method ledger trade :
  Trade.direction trade = SELL →
  outcome (process_trade ticker method ledger trade)
  = inr (consumed method (Trade.quantity trade) ledger).2.
Proof.
  intros Hdir. unfold process_trade. rewrite Hdir.
  rewrite outcome_bind by apply pure_consume.
  rewrite outcome_consume. by destruct (consumed _ _ _).
Qed.

Lemma emitted_process_sell ticker method ledger trade :
  Trade.direction trade = SELL →
  emitted (process_trade ticker method ledger trade)
  = [close_trade ticker method trade (consumed method (Trade.quantity trade) ledger).1].
Proof.
  intros Hdir. unfold process_trade. rewrite Hdir.
  rewrite emitted_bind.
  - rewrite (pure_emitted _ (pure_consume _ _ _)), outcome_consume.
    by destruct (consumed _ _ _).
  - apply pure_emits, pure_consume.
  - intros [cb l]. apply emits_bind; [apply emits_append_realized_profit|].
    intros. apply pure_emits, pure_ret.
Qed.

(** ** One security *)

Lemma ledger_after_cons ticker method ledger trade trades :
  ledger_after ticker method ledger (trade :: trades) =
  match outcome (process_trade ticker method ledger trade) with
  | inl e => inl e
  | inr ledger' => ledger_after ticker method ledger' trades
  end.
Proof. apply outcome_for_each_cons. intros. apply emits_process_trade. Qed.

Lemma closed_by_cons ticker method ledger trade trades :
  closed_by ticker method ledger (trade :: trades) =
  emitted (process_trade ticker method ledger trade) ++
  match outcome (process_trade ticker method ledger trade) with
  | inl e => []
  | inr ledger' => closed_by ticker method ledger' trades
  end.
Proof. apply emitted_for_each_cons. intros. apply emits_process_trade. Qed.

Lemma ledger_after_snoc ticker method ledger trades trade :
  ledger_after ticker method ledger (trades ++ [trade]) =
  match ledger_after ticker method ledger trades with
  | inl e => inl e
  | inr ledger' => outcome (process_trade ticker method ledger' trade)
  end.
Proof.
  revert ledger. induction trades as [|t trades IH]; intros ledger; simpl.
  - rewrite ledger_after_cons. unfold ledger_after. simpl.
    by destruct (outcome (process_trade ticker method ledger trade)).
  - rewrite !ledger_after_cons.
    by destruct (outcome (process_trade ticker method ledger t)).
Qed.

Lemma process_trade_returns ticker method ledger trade :
  divisible trade →
  ∃ ledger', outcome (process_trade ticker method ledger trade) = inr ledger'.
Proof.
  intros Hdiv. destruct (Trade.direction trade) eqn:Hdir.
  - rewrite outcome_process_buy by auto. by eexists.
  - rewrite outcome_process_sell by done. by eexists.
Qed.

Lemma ledger_after_returns ticker method ledger trades :
  Forall divisible trades →
  ∃ ledger', ledger_after ticker method ledger trades = inr ledger'.
Proof.
  intros Hall. revert ledger.
  induction Hall as [|t trades Ht _ IH]; intros ledger.
  - by exists ledger.
  - rewrite ledger_after_cons.
    destruct (process_trade_returns ticker method ledger t Ht) as [ledger' ->].
    apply IH.
Qed.

Lemma ledger_after_ledger_of ticker method trades :
  Forall divisible trades →
  ledger_after ticker method [] trades = inr (ledger_of ticker method trades).
Proof.
  intros Hall. unfold ledger_of.
  by destruct (ledger_after_returns ticker method [] trades Hall) as [l ->].
Qed.

Lemma process_ticker_run ticker trades method self :
  _process_ticker ticker trades method self =
  match ledger_after ticker method [] trades with
  | inl e => (inl e, emit (closed_by ticker method [] trades) self)
  | inr ledger =>
      (inr (), store ticker ledger (emit (closed_by ticker method [] trades) self))
  end.
Proof.
  unfold _process_ticker. rewrite bind_run.
  rewrite (emits_process_trades ticker method [] trades self).
  fold (ledger_after ticker method [] trades) (closed_by ticker method [] trades).
  by destruct (ledger_after ticker method [] trades).
Qed.

(** ** The grouping loop *)

Lemma tickers_snoc l trade :
  tickers (l ++ [trade]) =
  if decide (Trade.ticker trade ∈ tickers l) then tickers l
  else tickers l ++ [Trade.ticker trade].
Proof. unfold tickers. by rewrite foldl_app. Qed.

Lemma elem_of_tickers l k : k ∈ tickers l ↔ k ∈ Trade.ticker <$> l.
Proof.
  induction l as [|trade l IH] using rev_ind.
  - done.
  - rewrite tickers_snoc, fmap_app, elem_of_app. simpl.
    rewrite list_elem_of_singleton, <-IH.
    case_decide as Hin; [|rewrite elem_of_app, list_elem_of_singleton; tauto].
    split; [tauto|]. intros [?| ->]; done.
Qed.

Lemma NoDup_tickers l : NoDup (tickers l).
Proof.
  induction l as [|trade l IH] using rev_ind.
  - constructor.
  - rewrite tickers_snoc. case_decide as Hin; [done|].
    apply NoDup_app. split_and!; [done| |apply NoDup_singleton].
    intros k Hk ->%list_elem_of_singleton. done.
Qed.

Lemma filter_has_ticker_absent l k : k ∉ tickers l → filter (has_ticker k) l = [].
Proof.
  rewrite elem_of_tickers. intros Hk.
  induction l as [|trade l IH]; [done|].
  rewrite fmap_cons, not_elem_of_cons in Hk. destruct Hk as [Hne Hk].
  rewrite filter_cons_False by (unfold has_ticker; congruence). auto.
Qed.

Lemma group_by_ticker_snoc l trade :
  group_by_ticker (l ++ [trade]) =
  dict_append (Trade.ticker trade) trade (group_by_ticker l).
Proof. unfold group_by_ticker. by rewrite foldl_app. Qed.

Lemma dict_append_present (F : string → list Trade.t) k v ks :
  NoDup ks → k ∈ ks →
  dict_append k v ((λ k', (k', F k')) <$> ks) =
  (λ k', (k', if decide (k' = k) then F k' ++ [v] else F k')) <$> ks.
Proof.
  induction 1 as [|k' ks Hk' Hnd IH]; intros Hin; [by apply elem_of_nil in Hin|].
  simpl. destruct (decide (k' = k)) as [->|Hne].
  - f_equal. apply list_fmap_ext. intros i k'' Hlook.
    rewrite decide_False; [done|]. intros ->.
    apply Hk'. by eapply list_elem_of_lookup_2.
  - f_equal. apply IH. apply elem_of_cons in Hin as [?|?]; [congruence|done].
Qed.

Lemma dict_append_absent (F : string → list Trade.t) k v ks :
  k ∉ ks →
  dict_append k v ((λ k', (k', F k')) <$> ks) =
  ((λ k', (k', F k')) <$> ks) ++ [(k, [v])].
Proof.
  induction ks as [|k' ks IH]; intros Hin; [done|].
  apply not_elem_of_cons in Hin as [Hne Hin]. simpl.
  rewrite decide_False by done. f_equal. by apply IH.
Qed.

(** [trades_by_ticker] maps every security of the input, in order of first
    appearance, to the subsequence of its trades. *)
Lemma group_by_ticker_eq l :
  group_by_ticker l = (λ k, (k, filter (has_ticker k) l)) <$> tickers l.
Proof.
  induction l as [|trade l IH] using rev_ind; [done|].
  rewrite group_by_ticker_snoc, IH, tickers_snoc.
  case_decide as Hin.
  - rewrite dict_append_present by (done || apply NoDup_tickers).
    apply list_fmap_ext. intros i k Hlook. f_equal.
    rewrite filter_app. case_decide as Hk.
    + by rewrite filter_cons_True, filter_nil.
    + rewrite filter_cons_False, filter_nil, app_nil_r; [done|].
      unfold has_ticker. congruence.
  - rewrite dict_append_absent by done. rewrite fmap_app. f_equal.
    + apply list_fmap_ext. intros i k Hlook. f_equal.
      rewrite filter_app, filter_cons_False, filter_nil, app_nil_r; [done|].
      intros Hk. apply Hin. rewrite Hk. by eapply list_elem_of_lookup_2.
    + simpl. rewrite filter_app, filter_has_ticker_absent by done.
      by rewrite filter_cons_True.
Qed.

(** ** The whole call *)

Lemma calculate_run method self :
  calculate method self =
  process_groups method (group_by_ticker (trades self)) (result self [] ∅).
Proof. reflexivity. Qed.

Lemma process_groups_returns method groups self :
  (∀ k ts, (k, ts) ∈ groups → ∃ ledger, ledger_after k method [] ts = inr ledger) →
  process_groups method groups self =
  (inr (),
   result self
     (realized_profits self ++ concat ((λ g, closed_by g.1 method [] g.2) <$> groups))
     (foldl (λ o g, <[g.1 := ledger_of g.1 method g.2]> o) (open_positions self) groups)).
Proof.
  revert self. induction groups as [|[k ts] groups IH]; intros self Hok.
  - destruct self. unfold process_groups, result. simpl.
    rewrite app_nil_r. reflexivity.
  - unfold process_groups. simpl. rewrite bind_run, process_ticker_run.
    destruct (Hok k ts) as [ledger Hledger]; [by left|]. rewrite Hledger.
    assert (ledger_of k method ts = ledger) as Hof.
    { unfold ledger_of. by rewrite Hledger. }
    fold (process_groups method groups). rewrite IH.
    + unfold result, store, emit. simpl. by rewrite app_assoc, Hof.
    + intros k' ts' Hin. apply Hok. by right.
Qed.

Lemma process_groups_inv method groups self :
  (process_groups method groups self).1 = inr () →
  ∀ k ts, (k, ts) ∈ groups → ∃ ledger, ledger_after k method [] ts = inr ledger.
Proof.
  revert self. induction groups as [|[k ts] groups IH]; intros self Hret k' ts' Hin.
  - by apply elem_of_nil in Hin.
  - unfold process_groups in Hret. simpl in Hret.
    rewrite bind_run, process_ticker_run in Hret.
    destruct (ledger_after k method [] ts) as [e|ledger] eqn:Hledger; [done|].
    apply elem_of_cons in Hin as [[= -> ->]|Hin]; [by exists ledger|].
    by eapply IH.
Qed.

Lemma foldl_insert_fmap {A} (F : string → A) (G : string * A → list Lot.t) ks
    (o : gmap string (list Lot.t)) :
  foldl (λ o g, <[g.1 := G g]> o) o ((λ k, (k, F k)) <$> ks) =
  foldl (λ o k, <[k := G (k, F k)]> o) o ks.
Proof. revert o. induction ks as [|k ks IH]; intros o; simpl; [done|]. apply IH. Qed.

Lemma calculate_returns method self :
  completes method (trades self) →
  calculate method self =
  (inr (), result self (realized_of method (trades self)) (open_of method (trades self))).
Proof.
  intros Hok. rewrite calculate_run, group_by_ticker_eq.
  rewrite process_groups_returns.
  - unfold result, realized_of, open_of. simpl.
    rewrite <-list_fmap_compose.
    by rewrite (foldl_insert_fmap _ (λ g, ledger_of g.1 method g.2)).
  - intros k ts (k' & [= -> ->] & Hin)%list_elem_of_fmap. by apply Hok.
Qed.

Lemma calculate_inv method self :
  (calculate method self).1 = inr () → completes method (trades self).
Proof.
  rewrite calculate_run, group_by_ticker_eq. intros Hret k Hk.
  eapply process_groups_inv; [done|].
  apply list_elem_of_fmap. by exists k.
Qed.

Lemma Forall_filter_has_ticker (P : Trade.t → Prop) k l :
  Forall P l → Forall P (filter (has_ticker k) l).
Proof.
  rewrite !Forall_forall. intros HP x [_ Hin]%list_elem_of_filter. by apply HP.
Qed.

Lemma divisible_completes method l : Forall divisible l → completes method l.
Proof.
  intros Hall k _. by apply ledger_after_returns, Forall_filter_has_ticker.
Qed.

Lemma lookup_open_of method l k :
  open_of method l !! k =
  if decide (k ∈ tickers l) then Some (ledger_of k method (filter (has_ticker k) l))
  else None.
Proof.
  unfold open_of.
  assert (∀ ks (o : gmap string (list Lot.t)),
    foldl (λ o k, <[k := ledger_of k method (filter (has_ticker k) l)]> o) o ks !! k =
    if decide (k ∈ ks) then Some (ledger_of k method (filter (has_ticker k) l))
    else o !! k) as Hfold.
  { induction ks as [|k' ks IH]; intros o; simpl; [done|].
    rewrite IH. destruct (decide (k ∈ ks)) as [Hin|Hin].
    - rewrite decide_True; [done|]. by right.
    - destruct (decide (k' = k)) as [->|Hne].
      + rewrite lookup_insert_eq, decide_True; [done|]. by left.
      + rewrite lookup_insert_ne, decide_False; [done| |done].
        rewrite not_elem_of_cons. split; [congruence|done]. }
  rewrite Hfold. by case_decide.
Qed.

(** ** Valid input *)

Lemma valid_divisible trade : valid trade → divisible trade.
Proof.
  intros [Hq _] _ Heq. rewrite Heq in Hq. by apply Qclt_not_eq in Hq.
Qed.

Lemma Forall_valid_divisible l : Forall valid l → Forall divisible l.
Proof. intros Hall. eapply Forall_impl; [done|]. apply valid_divisible. Qed.

(** * The claims *)

(** C4. BUY 10 @ 100, BUY 10 @ 200, SELL 15 @ 180 (all fees 0) on one
    security under FIFO: [calculate] returns, emits one ClosedTrade with cost
    basis 2000 and realized profit 700, and leaves a single open lot of 5
    units at unit cost 200. *)
Theorem fifo_two_buys_one_sell :
  let r := calculate "FIFO" (with_trades two_buys_one_sell) in
  r.1 = inr () ∧
  realized_profits r.2 =
    [ClosedTrade.mk "AAPL" 3 (Qc_of_Z 15) (Qc_of_Z 180) 0
                    (Qc_of_Z 2000) (Qc_of_Z 700) (Qc_of_Z 2700) "FIFO"] ∧
  open_positions r.2 =
    {[ "AAPL" := [Lot.mk 2 (Qc_of_Z 5) (Qc_of_Z 200) (Qc_of_Z 2000) 0] ]}.
Proof. split_and!; by_computation. Qed.

(** C5. The same three trades under AVG: the average unit cost before the
    sale is 150, the emitted ClosedTrade has cost basis 2250 and realized
    profit 450, and both original lots stay open, each with its quantity
    multiplied by the ratio (20 - 15) / 20, which totals 5 units. *)
Theorem avg_two_buys_one_sell :
  let before := ledger_of "AAPL" "AVG" two_buys in
  let ratio := (total_qty before - Qc_of_Z 15) / total_qty before in
  let r := calculate "AVG" (with_trades two_buys_one_sell) in
  before = [Lot.mk 1 (Qc_of_Z 10) (Qc_of_Z 100) (Qc_of_Z 1000) 0;
            Lot.mk 2 (Qc_of_Z 10) (Qc_of_Z 200) (Qc_of_Z 2000) 0] ∧
  total_cost before / total_qty before = Qc_of_Z 150 ∧
  r.1 = inr () ∧
  realized_profits r.2 =
    [ClosedTrade.mk "AAPL" 3 (Qc_of_Z 15) (Qc_of_Z 180) 0
                    (Qc_of_Z 2250) (Qc_of_Z 450) (Qc_of_Z 2700) "AVG"] ∧
  open_positions r.2 = {[ "AAPL" := scale ratio <$> before ]} ∧
  total_qty (scale ratio <$> before) = Qc_of_Z 5.
Proof. split_and!; by_computation. Qed.

(** ** Repeated calls *)

Lemma process_groups_state method groups self :
  ∃ cs o, (process_groups method groups self).2 = result self cs o.
Proof.
  revert self. induction groups as [|[k ts] groups IH]; intros self.
  - exists (realized_profits self), (open_positions self). by destruct self.
  - unfold process_groups. simpl. rewrite bind_run, process_ticker_run.
    destruct (ledger_after k method [] ts) as [e|ledger].
    + by eexists _, _.
    + fold (process_groups method groups).
      destruct (IH (store k ledger (emit (closed_by k method [] ts) self)))
        as (cs & o & ->).
      by exists cs, o.
Qed.

Lemma calculate_state method self :
  ∃ cs o, (calculate method self).2 = result self cs o.
Proof.
  rewrite calculate_run.
  destruct (process_groups_state method (group_by_ticker (trades self))
              (result self [] ∅)) as (cs & o & ->).
  by exists cs, o.
Qed.

Lemma calculate_resets method self cs o :
  calculate method (result self cs o) = calculate method self.
Proof. by rewrite !calculate_run. Qed.

(** C7. [calculate] overwrites [realized_profits] and [open_positions]
    before anything else, so whatever an earlier call (or anything else)
    left in them does not reach the result, and a second call on the
    instance the first call left behind gives the same outcome, the same
    ClosedTrade sequence and the same open-position map. *)
Theorem calculate_twice method self :
  (∀ stale_profits stale_positions,
     calculate method (result self stale_profits stale_positions)
     = calculate method self) ∧
  calculate method (calculate method self).2 = calculate method self.
Proof.
  split; [apply calculate_resets|].
  destruct (calculate_state method self) as (cs & o & ->).
  apply calculate_resets.
Qed.

(** ** One record per SELL *)

Lemma closed_by_sales ticker method ledger trades :
  Forall divisible trades →
  sale_of <$> closed_by ticker method ledger trades
  = sale ticker method <$> filter is_sell trades.
Proof.
  intros Hall. revert ledger.
  induction Hall as [|t trades Ht _ IH]; intros ledger; [done|].
  rewrite closed_by_cons. destruct (Trade.direction t) eqn:Hdir.
  - rewrite emitted_process_buy, outcome_process_buy by auto. simpl.
    rewrite filter_cons_False by (unfold is_sell; congruence). apply IH.
  - rewrite emitted_process_sell, outcome_process_sell by done. simpl.
    rewrite filter_cons_True by done. rewrite fmap_cons, IH. done.
Qed.

Lemma closed_by_ticker ticker method ledger trades c :
  c ∈ closed_by ticker method ledger trades → ClosedTrade.ticker c = ticker.
Proof.
  revert ledger. induction trades as [|t trades IH]; intros ledger.
  - by intros ?%elem_of_nil.
  - rewrite closed_by_cons. intros [Hc|Hc]%elem_of_app.
    + destruct (Trade.direction t) eqn:Hdir.
      * rewrite emitted_process_buy in Hc by done. by apply elem_of_nil in Hc.
      * rewrite emitted_process_sell in Hc by done.
        by apply list_elem_of_singleton in Hc as ->.
    + destruct (outcome (process_trade ticker method ledger t)) as [e|ledger'].
      * by apply elem_of_nil in Hc.
      * by eapply IH.
Qed.

Lemma filter_all {A} (P : A → Prop) `{!∀ x, Decision (P x)} (l : list A) :
  Forall P l → filter P l = l.
Proof.
  induction 1 as [|x l Hx _ IH]; [done|]. by rewrite filter_cons_True, IH.
Qed.

Lemma filter_none {A} (P : A → Prop) `{!∀ x, Decision (P x)} (l : list A) :
  Forall (λ x, ¬ P x) l → filter P l = [].
Proof.
  induction 1 as [|x l Hx _ IH]; [done|]. by rewrite filter_cons_False.
Qed.

Lemma filter_concat_groups (F : string → list ClosedTrade.t) ks k :
  NoDup ks → (∀ k' c, c ∈ F k' → ClosedTrade.ticker c = k') →
  filter (closed_for k) (concat (F <$> ks)) = if decide (k ∈ ks) then F k else [].
Proof.
  intros Hnd HF. induction Hnd as [|k' ks Hk' Hnd IH]; [done|].
  rewrite fmap_cons.
  change (concat (F k' :: (F <$> ks))) with (F k' ++ concat (F <$> ks)).
  rewrite filter_app, IH. destruct (decide (k' = k)) as [->|Hne].
  - rewrite (decide_False (P := k ∈ ks)) by done.
    rewrite decide_True by by left.
    rewrite app_nil_r. apply filter_all.
    apply Forall_forall. intros c Hc. by apply HF.
  - assert (filter (closed_for k) (F k') = []) as ->.
    { apply filter_none. apply Forall_forall. intros c Hc Hk.
      apply Hne. rewrite <-Hk. symmetry. by apply HF. }
    simpl. destruct (decide (k ∈ ks)).
    + rewrite decide_True; [done|by right].
    + rewrite decide_False; [done|]. rewrite not_elem_of_cons. split; congruence.
Qed.

(** The records of one security within the result of [calculate]. *)
Lemma filter_realized_of method l k :
  filter (closed_for k) (realized_of method l)
  = closed_by k method [] (filter (has_ticker k) l).
Proof.
  unfold realized_of.
  rewrite (filter_concat_groups (λ k, closed_by k method [] (filter (has_ticker k) l))).
  - case_decide as Hin; [done|]. by rewrite filter_has_ticker_absent.
  - apply NoDup_tickers.
  - intros k' c. apply closed_by_ticker.
Qed.

(** Counting over the groups. *)
Lemma sum_list_with_add {A} (f g : A → nat) (l : list A) :
  sum_list_with (λ x, f x + g x)%nat l = (sum_list_with f l + sum_list_with g l)%nat.
Proof. induction l as [|x l IH]; simpl; [done|]. rewrite IH. lia. Qed.

Lemma sum_list_with_ext {A} (f g : A → nat) (l : list A) :
  (∀ x, x ∈ l → f x = g x) → sum_list_with f l = sum_list_with g l.
Proof.
  induction l as [|x l IH]; intros Hfg; simpl; [done|].
  rewrite Hfg by by left. rewrite IH; [done|]. intros y Hy. apply Hfg. by right.
Qed.

Lemma sum_list_with_zero {A} (l : list A) : sum_list_with (λ _, 0%nat) l = 0%nat.
Proof. by induction l. Qed.

Lemma sum_list_with_indicator (c : nat) trade ks :
  NoDup ks → Trade.ticker trade ∈ ks →
  sum_list_with (λ k, if decide (has_ticker k trade) then c else 0%nat) ks = c.
Proof.
  induction 1 as [|k ks Hk Hnd IH]; intros Hin; [by apply elem_of_nil in Hin|].
  simpl. destruct (decide (has_ticker k trade)) as [Heq|Hne].
  - rewrite (sum_list_with_ext _ (λ _, 0%nat)), sum_list_with_zero; [lia|].
    intros k' Hk'. rewrite decide_False; [done|].
    unfold has_ticker in *. congruence.
  - rewrite IH; [done|]. apply elem_of_cons in Hin as [Heq|Hin]; [|done].
    by destruct Hne.
Qed.

Lemma length_concat_fmap {A B} (F : A → list B) (ks : list A) :
  length (concat (F <$> ks)) = sum_list_with (λ k, length (F k)) ks.
Proof.
  induction ks as [|k ks IH]; [done|].
  rewrite fmap_cons. change (concat (F k :: (F <$> ks))) with (F k ++ concat (F <$> ks)).
  rewrite length_app, IH. done.
Qed.

(** Splitting a count over the securities. *)
Lemma length_filter_groups (P : Trade.t → Prop) `{!∀ x, Decision (P x)} ks l :
  NoDup ks → (∀ trade, trade ∈ l → Trade.ticker trade ∈ ks) →
  sum_list_with (λ k, length (filter P (filter (has_ticker k) l))) ks
  = length (filter P l).
Proof.
  intros Hnd. induction l as [|t l IH]; intros Hks.
  - apply sum_list_with_zero.
  - rewrite (sum_list_with_ext _
      (λ k, (if decide (has_ticker k t) then length (filter P [t]) else 0) +
            length (filter P (filter (has_ticker k) l)))%nat).
    + rewrite sum_list_with_add, sum_list_with_indicator, IH.
      * change (t :: l) with ([t] ++ l). by rewrite filter_app, length_app.
      * intros t' Ht'. apply Hks. by right.
      * done.
      * apply Hks. by left.
    + intros k _. rewrite (filter_cons (has_ticker k)). case_decide; [|done].
      change (t :: filter (has_ticker k) l) with ([t] ++ filter (has_ticker k) l).
      by rewrite filter_app, length_app.
Qed.

Lemma length_closed_by ticker method ledger trades :
  Forall divisible trades →
  length (closed_by ticker method ledger trades) = length (filter is_sell trades).
Proof.
  intros Hall.
  rewrite <-(length_fmap sale_of), closed_by_sales by done. apply length_fmap.
Qed.

Lemma length_realized_of method l :
  Forall divisible l → length (realized_of method l) = length (filter is_sell l).
Proof.
  intros Hall. unfold realized_of. rewrite length_concat_fmap.
  rewrite <-(length_filter_groups is_sell (tickers l) l).
  - apply sum_list_with_ext. intros k _.
    by apply length_closed_by, Forall_filter_has_ticker.
  - apply NoDup_tickers.
  - intros t Ht. apply elem_of_tickers. by apply list_elem_of_fmap_2.
Qed.

(** C6. For a valid trade sequence [calculate] returns, and
    [realized_profits] then holds exactly one ClosedTrade per SELL of the
    input: as many records as there are SELL trades, and for every security
    its records are, in order, the copies of that security's SELL trades
    (ticker, date, quantity, price, fee and method tag). A BUY contributes
    none, and a SELL contributes one whatever the ledger holds. This holds
    for every method string, FIFO and AVG in particular. *)
Theorem one_closed_trade_per_sell method self :
  Forall valid (trades self) →
  let r := calculate method self in
  r.1 = inr () ∧
  length (realized_profits r.2) = length (filter is_sell (trades self)) ∧
  ∀ k, sale_of <$> filter (closed_for k) (realized_profits r.2)
       = sale k method <$> filter is_sell (filter (has_ticker k) (trades self)).
Proof.
  intros Hvalid%Forall_valid_divisible. simpl.
  rewrite calculate_returns by by apply divisible_completes. simpl.
  split_and!; [done|by apply length_realized_of|].
  intros k. rewrite filter_realized_of.
  by apply closed_by_sales, Forall_filter_has_ticker.
Qed.

Lemma one_closed_trade_per_sell_witness :
  Forall valid sell_without_buy ∧
  length (realized_profits (calculate "FIFO" (with_trades sell_without_buy)).2)
  = 1%nat.
Proof.
  assert (Forall valid sell_without_buy) as Hvalid.
  { apply (bool_decide_unpack _). vm_compute. exact I. }
  split; [exact Hvalid|].
  exact (proj1 (proj2
    (one_closed_trade_per_sell "FIFO" (with_trades sell_without_buy) Hvalid))).
Defined.

(** ** Securities do not interact *)

Lemma interleaving_Forall {A} (P : A → Prop) l1 l2 l :
  interleaving l1 l2 l → Forall P l1 → Forall P l2 → Forall P l.
Proof.
  induction 1 as [|x l1 l2 l _ IH|x l1 l2 l _ IH]; intros H1 H2.
  - done.
  - apply Forall_cons in H1 as [Hx H1]. apply Forall_cons. auto.
  - apply Forall_cons in H2 as [Hx H2]. apply Forall_cons. auto.
Qed.

Lemma interleaving_filter a b la lb l :
  a ≠ b → Forall (has_ticker a) la → Forall (has_ticker b) lb →
  interleaving la lb l →
  filter (has_ticker a) l = la ∧ filter (has_ticker b) l = lb.
Proof.
  intros Hab Ha Hb Hl.
  induction Hl as [|x la lb l _ IH|x la lb l _ IH].
  - done.
  - apply Forall_cons in Ha as [Hx Ha]. destruct (IH Ha Hb) as [IHa IHb].
    rewrite filter_cons_True, IHa by done.
    rewrite filter_cons_False; [done|]. unfold has_ticker in *. congruence.
  - apply Forall_cons in Hb as [Hx Hb]. destruct (IH Ha Hb) as [IHa IHb].
    rewrite (filter_cons_True (has_ticker b)), IHb by done.
    rewrite filter_cons_False; [done|]. unfold has_ticker in *. congruence.
Qed.

Lemma filter_has_ticker_idemp k (l : list Trade.t) :
  filter (has_ticker k) (filter (has_ticker k) l) = filter (has_ticker k) l.
Proof. by apply list_filter_filter_l. Qed.

Lemma elem_of_tickers_filter k (l : list Trade.t) :
  k ∈ tickers (filter (has_ticker k) l) ↔ k ∈ tickers l.
Proof.
  rewrite !elem_of_tickers, !list_elem_of_fmap. split.
  - intros (t & -> & [_ Hin]%list_elem_of_filter). by exists t.
  - intros (t & -> & Hin). exists t. split; [done|]. by apply list_elem_of_filter.
Qed.

Lemma elem_of_concat_fmap {A B} (F : A → list B) (ks : list A) y :
  y ∈ concat (F <$> ks) → ∃ k, k ∈ ks ∧ y ∈ F k.
Proof.
  induction ks as [|k ks IH]; [by intros ?%elem_of_nil|].
  rewrite fmap_cons.
  change (concat (F k :: (F <$> ks))) with (F k ++ concat (F <$> ks)).
  intros [Hy|Hy]%elem_of_app.
  - exists k. split; [by left|done].
  - destruct (IH Hy) as (k' & Hk' & Hy'). exists k'. split; [by right|done].
Qed.

Lemma realized_of_ticker method l c :
  c ∈ realized_of method l → ClosedTrade.ticker c ∈ tickers l.
Proof.
  unfold realized_of. intros (k & Hk & Hc)%elem_of_concat_fmap.
  by apply closed_by_ticker in Hc as ->.
Qed.

(** Restricting the result of [calculate] to one security gives the result
    of [calculate] on that security's trades. *)
Lemma realized_of_partition method l k :
  filter (closed_for k) (realized_of method l)
  = realized_of method (filter (has_ticker k) l).
Proof.
  rewrite filter_realized_of.
  rewrite <-(filter_has_ticker_idemp k l) at 1.
  rewrite <-filter_realized_of. apply filter_all.
  apply Forall_forall. intros c Hc%realized_of_ticker.
  apply elem_of_tickers, list_elem_of_fmap in Hc as (t & Hc & Ht).
  apply list_elem_of_filter in Ht as [Ht _].
  unfold closed_for, has_ticker in *. congruence.
Qed.

Lemma open_of_partition method l k :
  open_of method l !! k = open_of method (filter (has_ticker k) l) !! k.
Proof.
  rewrite !lookup_open_of, filter_has_ticker_idemp.
  apply decide_ext. symmetry. apply elem_of_tickers_filter.
Qed.

Lemma calculate_with_trades method l :
  Forall divisible l →
  calculate method (with_trades l)
  = (inr (), result (with_trades l) (realized_of method l) (open_of method l)).
Proof. intros Hall. by rewrite calculate_returns by by apply divisible_completes. Qed.

(** C8. Let [la] and [lb] be valid trade sequences of two distinct
    securities [a] and [b], and [l] any interleaving of them that keeps the
    order within each. Then for each of the two securities, the ClosedTrade
    records of that security in the result of [calculate] on [l], and the
    lots remaining open for it, are those of [calculate] on the security's
    own sequence. *)
Theorem partition_independence method a b la lb l :
  a ≠ b →
  Forall (has_ticker a) la → Forall (has_ticker b) lb →
  Forall valid la → Forall valid lb →
  interleaving la lb l →
  let r := (calculate method (with_trades l)).2 in
  let ra := (calculate method (with_trades la)).2 in
  let rb := (calculate method (with_trades lb)).2 in
  (filter (closed_for a) (realized_profits r) = realized_profits ra ∧
   open_positions r !! a = open_positions ra !! a) ∧
  (filter (closed_for b) (realized_profits r) = realized_profits rb ∧
   open_positions r !! b = open_positions rb !! b).
Proof.
  intros Hab Ha Hb Hva Hvb Hl.
  pose proof (interleaving_Forall valid la lb l Hl Hva Hvb) as Hv.
  destruct (interleaving_filter a b la lb l Hab Ha Hb Hl) as [Hfa Hfb].
  simpl. rewrite !calculate_with_trades by by apply Forall_valid_divisible.
  simpl. rewrite !realized_of_partition.
  rewrite (open_of_partition method l a), (open_of_partition method l b).
  by rewrite Hfa, Hfb.
Qed.

Lemma partition_independence_witness :
  "AAPL" ≠ "MSFT" ∧
  Forall (has_ticker "AAPL") two_buys_one_sell ∧
  Forall (has_ticker "MSFT") other_security ∧
  Forall valid two_buys_one_sell ∧ Forall valid other_security ∧
  interleaving two_buys_one_sell other_security two_securities ∧
  filter (closed_for "MSFT")
         (realized_profits (calculate "AVG" (with_trades two_securities)).2)
  = realized_profits (calculate "AVG" (with_trades other_security)).2.
Proof.
  assert ("AAPL" ≠ "MSFT") as Hne by discriminate.
  assert (Forall (has_ticker "AAPL") two_buys_one_sell) as Ha.
  { apply (bool_decide_unpack _). vm_compute. exact I. }
  assert (Forall (has_ticker "MSFT") other_security) as Hb.
  { apply (bool_decide_unpack _). vm_compute. exact I. }
  assert (Forall valid two_buys_one_sell) as Hva.
  { apply (bool_decide_unpack _). vm_compute. exact I. }
  assert (Forall valid other_security) as Hvb.
  { apply (bool_decide_unpack _). vm_compute. exact I. }
  assert (interleaving two_buys_one_sell other_security two_securities) as Hl.
  { apply interleaving_left, interleaving_right, interleaving_left,
      interleaving_left, interleaving_right, interleaving_nil. }
  split_and!; [exact Hne|exact Ha|exact Hb|exact Hva|exact Hvb|exact Hl|].
  exact (proj1 (proj2 (partition_independence "AVG" "AAPL" "MSFT"
                         two_buys_one_sell other_security two_securities
                         Hne Ha Hb Hva Hvb Hl))).
Defined.

(** ** The keys of [open_positions] *)

Lemma consumed_nil method qty_to_sell : (consumed method qty_to_sell []).2 = [].
Proof.
  unfold consumed, consume. case_decide; [done|]. case_decide; [|done].
  by rewrite outcome_avg_branch_empty.
Qed.

Lemma ledger_after_sells ticker method trades :
  Forall is_sell trades → ledger_after ticker method [] trades = inr [].
Proof.
  induction 1 as [|t trades Ht _ IH]; [done|].
  by rewrite ledger_after_cons, outcome_process_sell, consumed_nil.
Qed.

Lemma dom_open_of method l :
  dom (open_of method l) = list_to_set (Trade.ticker <$> l).
Proof.
  apply set_eq. intros k.
  rewrite elem_of_dom, elem_of_list_to_set, <-elem_of_tickers, lookup_open_of.
  case_decide; split; done.
Qed.

(** C10. When [calculate] returns, the keys of [open_positions] are exactly
    the securities that appear in the input trades, each mapped to the
    ledger its processing ended with. A security with only SELL trades is
    mapped to the empty list, and so is one whose lots were all consumed, as
    for BUY 10 followed by SELL 10 under FIFO. *)
Theorem open_positions_keys method self :
  (calculate method self).1 = inr () →
  let r := (calculate method self).2 in
  dom (open_positions r) = list_to_set (Trade.ticker <$> trades self) ∧
  (∀ k, k ∈ Trade.ticker <$> trades self →
        open_positions r !! k
        = Some (ledger_of k method (filter (has_ticker k) (trades self)))) ∧
  (∀ k, k ∈ Trade.ticker <$> trades self →
        Forall is_sell (filter (has_ticker k) (trades self)) →
        open_positions r !! k = Some []) ∧
  open_positions (calculate "FIFO" (with_trades buy_then_sell_all)).2
  = {[ "AAPL" := [] ]}.
Proof.
  intros Hret%calculate_inv. simpl. rewrite calculate_returns by done. simpl.
  assert (∀ k, k ∈ Trade.ticker <$> trades self →
               open_of method (trades self) !! k
               = Some (ledger_of k method (filter (has_ticker k) (trades self))))
    as Hlookup.
  { intros k Hk%elem_of_tickers. by rewrite lookup_open_of, decide_True. }
  split_and!.
  - apply dom_open_of.
  - done.
  - intros k Hk Hsells. rewrite Hlookup by done.
    unfold ledger_of. by rewrite ledger_after_sells.
  - by_computation.
Qed.

Lemma open_positions_keys_witness :
  (calculate "AVG" (with_trades sell_without_buy)).1 = inr () ∧
  open_positions (calculate "AVG" (with_trades sell_without_buy)).2 !! "MSFT"
  = Some [].
Proof.
  assert ((calculate "AVG" (with_trades sell_without_buy)).1 = inr ()) as Hret.
  { vm_compute. reflexivity. }
  split; [exact Hret|].
  refine (proj1 (proj2 (proj2
    (open_positions_keys "AVG" (with_trades sell_without_buy) Hret))) "MSFT" _ _).
  - apply (bool_decide_unpack _). vm_compute. exact I.
  - apply (bool_decide_unpack _). vm_compute. exact I.
Defined.

(** ** An unrecognised method *)

Lemma consumed_unmatched method qty_to_sell ledger :
  method ≠ "FIFO" → method ≠ "AVG" →
  consumed method qty_to_sell ledger = (0, ledger).
Proof.
  intros Hfifo Havg. unfold consumed, consume. by rewrite !decide_False.
Qed.

Lemma unmatched_run ticker method ledger trades :
  method ≠ "FIFO" → method ≠ "AVG" → Forall divisible trades →
  ledger_after ticker method ledger trades
  = inr (ledger ++ ((λ t, lot_of_buy t (buy_unit_cost t)) <$> filter is_buy trades)) ∧
  closed_by ticker method ledger trades
  = (λ t, close_trade ticker method t 0) <$> filter is_sell trades.
Proof.
  intros Hfifo Havg Hall. revert ledger.
  induction Hall as [|t trades Ht _ IH]; intros ledger.
  - split; [|done]. unfold ledger_after. simpl. by rewrite app_nil_r.
  - rewrite ledger_after_cons, closed_by_cons.
    destruct (Trade.direction t) eqn:Hdir.
    + rewrite outcome_process_buy, emitted_process_buy by auto.
      destruct (IH (ledger ++ [lot_of_buy t (buy_unit_cost t)])) as [-> ->].
      rewrite (filter_cons_True is_buy) by done.
      rewrite (filter_cons_False is_sell) by (unfold is_sell; congruence).
      by rewrite fmap_cons, <-app_assoc.
    + rewrite outcome_process_sell, emitted_process_sell by done.
      rewrite consumed_unmatched by done. simpl.
      destruct (IH ledger) as [-> ->].
      rewrite (filter_cons_True is_sell) by done.
      rewrite (filter_cons_False is_buy) by (unfold is_buy; congruence).
      done.
Qed.

(** The counterexample to C1: with the method string ["LIFO"] the call on
    the three trades of the tests is not rejected. *)
Lemma unmatched_method_not_rejected :
  ¬ rejected "LIFO" (with_trades two_buys_one_sell).
Proof.
  intros (e & self' & Hcall & _).
  assert ((calculate "LIFO" (with_trades two_buys_one_sell)).1 = inr ()) as Hret.
  { vm_compute. reflexivity. }
  rewrite Hcall in Hret. discriminate Hret.
Qed.

(** C1, amended. A method string that is neither ["FIFO"] nor ["AVG"] is
    not rejected: on valid trades [calculate] returns; every SELL of a
    security yields, in order, a ClosedTrade with cost basis 0 (so its
    realized profit is the sale proceeds) tagged with the given string; and
    no lot is consumed: each security's open position is the sequence of
    lots of all its BUY trades. *)
Theorem unmatched_method_runs method self :
  method ≠ "FIFO" → method ≠ "AVG" → Forall valid (trades self) →
  let r := calculate method self in
  r.1 = inr () ∧
  (∀ k, filter (closed_for k) (realized_profits r.2)
        = (λ t, close_trade k method t 0)
          <$> filter is_sell (filter (has_ticker k) (trades self))) ∧
  Forall (λ c, ClosedTrade.cost_basis c = 0 ∧
               ClosedTrade.realized_profit c = ClosedTrade.sale_proceeds c ∧
               ClosedTrade.method c = method)
         (realized_profits r.2) ∧
  (∀ k, k ∈ Trade.ticker <$> trades self →
        open_positions r.2 !! k
        = Some ((λ t, lot_of_buy t (buy_unit_cost t))
                <$> filter is_buy (filter (has_ticker k) (trades self)))).
Proof.
  intros Hfifo Havg Hvalid%Forall_valid_divisible. simpl.
  rewrite calculate_returns by by apply divisible_completes. simpl.
  assert (∀ k, closed_by k method [] (filter (has_ticker k) (trades self))
               = (λ t, close_trade k method t 0)
                 <$> filter is_sell (filter (has_ticker k) (trades self))) as Hclosed.
  { intros k. by apply unmatched_run, Forall_filter_has_ticker. }
  split_and!.
  - done.
  - intros k. by rewrite filter_realized_of.
  - apply Forall_forall. intros c (k & _ & Hc)%elem_of_concat_fmap.
    rewrite Hclosed in Hc. apply list_elem_of_fmap in Hc as (t & -> & _).
    simpl. split_and!; [done| |done]. apply (right_id 0 Qcminus).
  - intros k Hk%elem_of_tickers. rewrite lookup_open_of, decide_True by done.
    f_equal. unfold ledger_of.
    by destruct (unmatched_run k method [] (filter (has_ticker k) (trades self))
                   Hfifo Havg (Forall_filter_has_ticker _ k _ Hvalid)) as [-> _].
Qed.

Lemma unmatched_method_runs_witness :
  "LIFO" ≠ "FIFO" ∧ "LIFO" ≠ "AVG" ∧ Forall valid two_buys_one_sell ∧
  (calculate "LIFO" (with_trades two_buys_one_sell)).1 = inr ().
Proof.
  assert ("LIFO" ≠ "FIFO") as Hfifo by discriminate.
  assert ("LIFO" ≠ "AVG") as Havg by discriminate.
  assert (Forall valid two_buys_one_sell) as Hvalid.
  { apply (bool_decide_unpack _). vm_compute. exact I. }
  split_and!; [exact Hfifo|exact Havg|exact Hvalid|].
  exact (proj1 (unmatched_method_runs "LIFO" (with_trades two_buys_one_sell)
                  Hfifo Havg Hvalid)).
Defined.

(** ** Arithmetic of the ledger *)

Lemma eps_pos : 0 < eps.
Proof. by_computation. Qed.

Lemma ratio_neg (T q : Qc) : 0 < T → T < q → (T - q) / T < 0.
Proof. intros HT Hq. qc2q. apply Qlt_shift_div_r; [done|]. lra. Qed.

Lemma ratio_le_1 (T q : Qc) : 0 < T → 0 ≤ q → (T - q) / T ≤ 1.
Proof. intros HT Hq. qc2q. apply Qle_shift_div_r; [done|]. lra. Qed.

Lemma scale_le (x r : Qc) : 0 ≤ x → r ≤ 1 → x * r ≤ x.
Proof. intros Hx Hr. qc2q. nra. Qed.

Lemma scale_neg (x r : Qc) : 0 < x → r < 0 → x * r < 0.
Proof. intros Hx Hr. qc2q. nra. Qed.

Lemma foldl_Qcplus (a : Qc) xs : foldl Qcplus a xs = a + foldl Qcplus 0 xs.
Proof.
  revert a. induction xs as [|x xs IH]; intros a; simpl.
  - ring.
  - rewrite (IH (a + x)), (IH (0 + x)). ring.
Qed.

Lemma py_sum_cons x xs : py_sum (x :: xs) = x + py_sum xs.
Proof. unfold py_sum. simpl. rewrite foldl_Qcplus. ring. Qed.

Lemma total_qty_cons lot ledger :
  total_qty (lot :: ledger) = Lot.quantity lot + total_qty ledger.
Proof. unfold total_qty. by rewrite fmap_cons, py_sum_cons. Qed.

Lemma total_qty_nonneg ledger : Forall held ledger → 0 ≤ total_qty ledger.
Proof.
  induction 1 as [|lot ledger Hlot _ IH]; [done|].
  rewrite total_qty_cons. unfold held in Hlot. qc2q. lra.
Qed.

Lemma total_qty_pos ledger : Forall held ledger → ledger ≠ [] → 0 < total_qty ledger.
Proof.
  intros Hall Hne. destruct Hall as [|lot ledger Hlot Hall]; [done|].
  rewrite total_qty_cons. apply total_qty_nonneg in Hall.
  unfold held in Hlot. qc2q. lra.
Qed.

(** ** Selling more than is held *)

Lemma avg_oversell_empties ratio ledger :
  Forall held ledger → ratio < 0 →
  filter (λ lot, ¬ below_eps lot) (scale ratio <$> ledger) = [].
Proof.
  intros Hall Hratio. apply filter_none, Forall_fmap, Forall_forall.
  intros lot Hlot. rewrite Forall_forall in Hall. specialize (Hall lot Hlot).
  simpl. intros Hnot. apply Hnot. unfold below_eps, scale, held in *. simpl.
  pose proof (scale_neg _ _ Hall Hratio). pose proof eps_pos. qc2q. lra.
Qed.

Lemma consumed_fifo qty_to_sell ledger :
  consumed "FIFO" qty_to_sell ledger
  = ((fifo_loop qty_to_sell 0 ledger).1.2, (fifo_loop qty_to_sell 0 ledger).2).
Proof.
  unfold consumed, consume. rewrite decide_True by done.
  by destruct (fifo_loop qty_to_sell 0 ledger) as [[? ?] ?].
Qed.

Lemma consumed_avg qty_to_sell ledger :
  0 < total_qty ledger →
  consumed "AVG" qty_to_sell ledger
  = (qty_to_sell * (total_cost ledger / total_qty ledger),
     filter (λ lot, ¬ below_eps lot)
            (scale ((total_qty ledger - qty_to_sell) / total_qty ledger) <$> ledger)).
Proof.
  intros Hpos. unfold consumed, consume.
  rewrite decide_False, decide_True by done. by rewrite outcome_avg_branch.
Qed.

Lemma consumed_avg_empty qty_to_sell ledger :
  ¬ 0 < total_qty ledger → consumed "AVG" qty_to_sell ledger = (0, ledger).
Proof.
  intros Hpos. unfold consumed, consume.
  rewrite decide_False, decide_True by done. by rewrite outcome_avg_branch_empty.
Qed.

(** The counterexample to C2: after BUY 10 @ 100, the AVG branch prices
    SELL 15 @ 180 at 15 times the average cost, 1500, while the ten units
    held cost 1000. *)
Lemma avg_oversell_not_matched_only :
  ¬ (is_sell sell_fifteen → Forall held ten_held →
     total_qty ten_held < Trade.quantity sell_fifteen →
     matched_only "AAPL" "AVG" ten_held sell_fifteen).
Proof.
  intros Hclaim.
  assert (is_sell sell_fifteen) as Hsell by done.
  assert (Forall held ten_held) as Hheld by by_computation.
  assert (total_qty ten_held < Trade.quantity sell_fifteen) as Hover
    by by_computation.
  destruct (Hclaim Hsell Hheld Hover) as [_ Hemitted].
  assert (ClosedTrade.cost_basis
            <$> emitted (process_trade "AAPL" "AVG" ten_held sell_fifteen)
          = [Qc_of_Z 1500]) as Hrun by by_computation.
  rewrite Hemitted in Hrun.
  assert (total_cost ten_held = Qc_of_Z 1000) as Hcost by by_computation.
  rewrite fmap_cons in Hrun. cbn [close_trade ClosedTrade.cost_basis] in Hrun.
  rewrite Hcost in Hrun. revert Hrun. by_computation.
Qed.

Lemma fifo_loop_exhausts qty_to_sell cost_basis ledger :
  exhausts qty_to_sell ledger →
  fifo_loop qty_to_sell cost_basis ledger
  = (left_to_sell qty_to_sell ledger, accrued cost_basis ledger, []).
Proof.
  revert qty_to_sell cost_basis.
  induction ledger as [|lot ledger IH]; intros qty cb; simpl; [done|].
  intros (Hpos & Hle & Hrest). rewrite !decide_True by done. by apply IH.
Qed.

(** On exact numbers, a quantity above the total of positive lots exhausts
    them. *)
Lemma exceeds_exhausts qty_to_sell ledger :
  Forall held ledger → total_qty ledger < qty_to_sell →
  exhausts qty_to_sell ledger.
Proof.
  intros Hall. revert qty_to_sell.
  induction Hall as [|lot ledger Hlot Hall IH]; intros qty Hover; simpl; [done|].
  rewrite total_qty_cons in Hover. unfold held in Hlot.
  pose proof (total_qty_nonneg ledger Hall) as Hnonneg.
  split_and!; [qc2q; lra..|]. apply IH. qc2q. lra.
Qed.

Lemma nonpositive_ratio_empties ratio ledger :
  Forall held ledger → ratio ≤ 0 →
  filter (λ lot, ¬ below_eps lot) (scale ratio <$> ledger) = [].
Proof.
  intros Hall Hratio. apply filter_none, Forall_fmap, Forall_forall.
  intros lot Hlot. rewrite Forall_forall in Hall. specialize (Hall lot Hlot).
  simpl. intros Hnot. apply Hnot. unfold below_eps, scale, held in *. simpl.
  pose proof eps_pos. qc2q. nra.
Qed.

(** C2, amended. A SELL that exhausts the ledger leaves it empty under both
    methods. Under FIFO the ledger is exhausted when each lot in turn is no
    larger than what is still to sell, and the cost basis is then the cost
    accumulated over the lots that were open, never of more. Under AVG it is
    exhausted when the quantity exceeds the total open quantity of positive
    lots, and the cost basis is the whole sold quantity at the average unit
    cost (0 when nothing was open), not the cost of what was open. *)
Theorem oversell ticker ledger trade :
  is_sell trade →
  (exhausts (Trade.quantity trade) ledger →
   outcome (process_trade ticker "FIFO" ledger trade) = inr [] ∧
   emitted (process_trade ticker "FIFO" ledger trade)
   = [close_trade ticker "FIFO" trade (accrued 0 ledger)]) ∧
  (Forall held ledger → total_qty ledger < Trade.quantity trade →
   outcome (process_trade ticker "AVG" ledger trade) = inr [] ∧
   emitted (process_trade ticker "AVG" ledger trade)
   = [close_trade ticker "AVG" trade
        (if decide (ledger = []) then 0
         else Trade.quantity trade * (total_cost ledger / total_qty ledger))]).
Proof.
  intros Hsell.
  rewrite !outcome_process_sell, !emitted_process_sell by done. split.
  - intros Hall. by rewrite consumed_fifo, fifo_loop_exhausts.
  - intros Hheld Hover.
    destruct (decide (ledger = [])) as [->|Hne]; [by rewrite consumed_avg_empty|].
    pose proof (total_qty_pos ledger Hheld Hne) as Hpos.
    rewrite consumed_avg by done. simpl.
    by rewrite avg_oversell_empties by (by apply ratio_neg || done).
Qed.

Lemma oversell_witness :
  is_sell sell_fifteen ∧ exhausts (Trade.quantity sell_fifteen) ten_held ∧
  Forall held ten_held ∧ total_qty ten_held < Trade.quantity sell_fifteen ∧
  outcome (process_trade "AAPL" "FIFO" ten_held sell_fifteen) = inr [] ∧
  outcome (process_trade "AAPL" "AVG" ten_held sell_fifteen) = inr [].
Proof.
  assert (is_sell sell_fifteen) as Hsell by reflexivity.
  assert (exhausts (Trade.quantity sell_fifteen) ten_held) as Hall.
  { apply (bool_decide_unpack _). vm_compute. exact I. }
  assert (Forall held ten_held) as Hheld.
  { apply (bool_decide_unpack _). vm_compute. exact I. }
  assert (total_qty ten_held < Trade.quantity sell_fifteen) as Hover.
  { apply (bool_decide_unpack _). vm_compute. exact I. }
  split_and!; [exact Hsell|exact Hall|exact Hheld|exact Hover| |].
  - exact (proj1 (proj1 (oversell "AAPL" ten_held sell_fifteen Hsell) Hall)).
  - exact (proj1 (proj2 (oversell "AAPL" ten_held sell_fifteen Hsell) Hheld Hover)).
Defined.

(** ** The epsilon cleanup *)

(** The counterexample to C3: under FIFO the partial consumption of the
    head lot leaves it in the ledger with 1e-10 units, and [calculate]
    reports it as an open position. *)
Lemma fifo_leaves_dust :
  ¬ no_dust (calculate "FIFO" (with_trades nearly_all_sold)).2.
Proof.
  intros Hclaim.
  specialize (Hclaim "AAPL"
    [Lot.mk 1 (Q2Qc (1 # 10000000000)) (Qc_of_Z 100) (Qc_of_Z 100) 0]).
  assert (open_positions (calculate "FIFO" (with_trades nearly_all_sold)).2 !! "AAPL"
          = Some [Lot.mk 1 (Q2Qc (1 # 10000000000)) (Qc_of_Z 100) (Qc_of_Z 100) 0])
    as Hopen by by_computation.
  apply Hclaim, Forall_cons in Hopen as [Hclean _].
  apply Hclean. by_computation.
Qed.

Lemma Forall_filter_self {A} (P : A → Prop) `{!∀ x, Decision (P x)} (l : list A) :
  Forall P (filter P l).
Proof. apply Forall_forall. by intros x [HP _]%list_elem_of_filter. Qed.

(** What the AVG branch leaves after a sale against a positive total. *)
Lemma consumed_avg_clean qty_to_sell ledger :
  0 < total_qty ledger → Forall clean (consumed "AVG" qty_to_sell ledger).2.
Proof.
  intros Hpos. rewrite consumed_avg by done. simpl.
  apply (Forall_filter_self (λ lot, ¬ below_eps lot)).
Qed.

Lemma as_bought_snoc trades trade lot :
  as_bought trades lot → as_bought (trades ++ [trade]) lot.
Proof.
  intros (t & Hin & Hbuy & ->). exists t. split_and!; [|done|done].
  apply elem_of_app. by left.
Qed.

Lemma as_bought_sizeable trades lot :
  Forall sizeable trades → as_bought trades lot → clean lot.
Proof.
  intros Hsize (t & Hin & Hbuy & ->). rewrite Forall_forall in Hsize.
  unfold clean, below_eps. simpl. apply Qcle_not_lt. by apply Hsize.
Qed.

(** Under AVG a lot in the ledger is not below [eps], unless no sale has
    touched it since its BUY. *)
Lemma ledger_after_avg_clean ticker trades ledger :
  ledger_after ticker "AVG" [] trades = inr ledger →
  Forall (λ lot, clean lot ∨ as_bought trades lot) ledger.
Proof.
  revert ledger. induction trades as [|t trades IH] using rev_ind; intros ledger.
  - by intros [= <-].
  - rewrite ledger_after_snoc.
    destruct (ledger_after ticker "AVG" [] trades) as [e|before]; [done|].
    specialize (IH before eq_refl).
    assert (Forall (λ lot, clean lot ∨ as_bought (trades ++ [t]) lot) before)
      as Hbefore.
    { eapply Forall_impl; [done|]. intros lot [?|?]; [by left|].
      right. by apply as_bought_snoc. }
    destruct (Trade.direction t) eqn:Hdir.
    + destruct (decide (Trade.quantity t = 0)) as [Hzero|Hzero].
      { by rewrite outcome_process_zero_buy. }
      rewrite outcome_process_buy by done. intros [= <-].
      apply Forall_app. split; [done|]. apply Forall_singleton. right.
      exists t. split_and!; [|done|done]. apply elem_of_app. right. by left.
    + rewrite outcome_process_sell by done. intros [= <-].
      destruct (decide (0 < total_qty before)).
      * eapply Forall_impl; [by apply consumed_avg_clean|]. by left.
      * by rewrite consumed_avg_empty.
Qed.

(** C3, amended. Under the AVG method and for valid trades, [calculate]
    returns, and at every point of a security's processing (after any
    prefix of its trades) as well as in the open-position output, every lot
    present has a remaining quantity of at least 1e-9 or is still exactly as
    its BUY created it: a lot that a sale scales below 1e-9 is removed by
    that sale, and only a BUY adds a lot. In particular, when every BUY
    quantity is at least 1e-9, no lot below 1e-9 is in the output. *)
Theorem avg_no_dust self :
  Forall valid (trades self) →
  let r := calculate "AVG" self in
  r.1 = inr () ∧
  (∀ k before after,
     filter (has_ticker k) (trades self) = before ++ after →
     ∃ ledger, ledger_after k "AVG" [] before = inr ledger ∧
               Forall (λ lot, clean lot ∨ as_bought before lot) ledger) ∧
  (∀ k lots,
     open_positions r.2 !! k = Some lots →
     Forall (λ lot, clean lot ∨
                    as_bought (filter (has_ticker k) (trades self)) lot) lots) ∧
  (Forall sizeable (trades self) → no_dust r.2).
Proof.
  intros Hdiv%Forall_valid_divisible. simpl.
  rewrite calculate_returns by by apply divisible_completes.
  unfold result, no_dust. cbn [fst snd open_positions].
  assert (∀ k lots,
            open_of "AVG" (trades self) !! k = Some lots →
            Forall (λ lot, clean lot ∨
                           as_bought (filter (has_ticker k) (trades self)) lot) lots)
    as Hopen.
  { intros k lots. rewrite lookup_open_of. case_decide; [|done]. intros [= <-].
    by apply (ledger_after_avg_clean k), ledger_after_ledger_of,
      Forall_filter_has_ticker. }
  split_and!; [done| |done|].
  - intros k before after Hsplit.
    destruct (ledger_after_returns k "AVG" [] before) as [ledger Hledger].
    { apply (Forall_filter_has_ticker _ k) in Hdiv.
      rewrite Hsplit in Hdiv. by apply Forall_app in Hdiv as [? _]. }
    exists ledger. split; [done|]. by apply (ledger_after_avg_clean k).
  - intros Hsize k lots Hlots. eapply Forall_impl; [by apply Hopen|].
    intros lot [?|Hbought]; [done|].
    eapply as_bought_sizeable; [|done]. by apply Forall_filter_has_ticker.
Qed.

Lemma avg_no_dust_witness :
  Forall valid two_buys_one_sell ∧ Forall sizeable two_buys_one_sell ∧
  no_dust (calculate "AVG" (with_trades two_buys_one_sell)).2.
Proof.
  assert (Forall valid two_buys_one_sell) as Hvalid.
  { apply (bool_decide_unpack _). vm_compute. exact I. }
  assert (Forall sizeable two_buys_one_sell) as Hsize.
  { apply (bool_decide_unpack _). vm_compute. exact I. }
  split_and!; [exact Hvalid|exact Hsize|].
  exact (proj2 (proj2 (proj2 (avg_no_dust (with_trades two_buys_one_sell) Hvalid)))
           Hsize).
Defined.

(** ** Lots only shrink *)

Lemma reduced_refl lot : reduced lot lot.
Proof. unfold reduced. split_and!; done. Qed.

Lemma shrinks_refl ledger : shrinks ledger ledger.
Proof.
  induction ledger as [|lot ledger IH]; [constructor|].
  apply shrinks_kept; [apply reduced_refl|done].
Qed.

Lemma fifo_loop_partial qty_to_sell cost_basis head_lot rest :
  0 < qty_to_sell → qty_to_sell < Lot.quantity head_lot →
  fifo_loop qty_to_sell cost_basis (head_lot :: rest)
  = (0, cost_basis + qty_to_sell * Lot.unit_cost head_lot,
     Lot.set_quantity head_lot (Lot.quantity head_lot - qty_to_sell) :: rest).
Proof.
  intros Hpos Hless. simpl. rewrite decide_True by done.
  rewrite decide_False; [done|]. by apply Qclt_not_le.
Qed.

Lemma fifo_loop_shrinks qty_to_sell cost_basis ledger :
  shrinks ledger (fifo_loop qty_to_sell cost_basis ledger).2.
Proof.
  revert qty_to_sell cost_basis.
  induction ledger as [|lot ledger IH]; intros qty cb; simpl; [constructor|].
  case_decide as Hpos; [|apply shrinks_refl].
  case_decide as Hfull.
  - apply shrinks_removed, IH.
  - simpl. apply shrinks_kept; [|apply shrinks_refl].
    unfold reduced. simpl. split_and!; try done. qc2q. lra.
Qed.

Lemma fifo_loop_held qty_to_sell cost_basis ledger :
  Forall held ledger → Forall held (fifo_loop qty_to_sell cost_basis ledger).2.
Proof.
  intros Hall. revert qty_to_sell cost_basis.
  induction Hall as [|lot ledger Hlot Hall IH]; intros qty cb; simpl; [done|].
  case_decide as Hpos; [|by constructor].
  case_decide as Hfull; [apply IH|].
  simpl. constructor; [|done]. unfold held. simpl.
  apply Qcnot_le_lt in Hfull. qc2q. lra.
Qed.

Lemma scaled_shrinks ratio ledger :
  Forall held ledger → ratio ≤ 1 →
  shrinks ledger (filter (λ lot, ¬ below_eps lot) (scale ratio <$> ledger)).
Proof.
  intros Hall Hratio. induction Hall as [|lot ledger Hlot Hall IH]; [constructor|].
  rewrite fmap_cons, filter_cons. case_decide.
  - apply shrinks_kept; [|done].
    unfold reduced, scale. simpl. split_and!; try done.
    apply scale_le; [|done]. by apply Qclt_le_weak.
  - by apply shrinks_removed.
Qed.

Lemma clean_held lot : clean lot → held lot.
Proof.
  unfold clean, below_eps, held. intros Hclean%Qcnot_lt_le.
  pose proof eps_pos. qc2q. lra.
Qed.

Lemma consumed_shrinks method qty_to_sell ledger :
  0 ≤ qty_to_sell → Forall held ledger →
  shrinks ledger (consumed method qty_to_sell ledger).2.
Proof.
  intros Hqty Hheld. destruct (decide (method = "FIFO")) as [->|Hfifo].
  { rewrite consumed_fifo. apply fifo_loop_shrinks. }
  destruct (decide (method = "AVG")) as [->|Havg].
  - destruct (decide (0 < total_qty ledger)) as [Hpos|Hpos].
    + rewrite consumed_avg by done. simpl.
      apply scaled_shrinks; [done|]. by apply ratio_le_1.
    + rewrite consumed_avg_empty by done. apply shrinks_refl.
  - rewrite consumed_unmatched by done. apply shrinks_refl.
Qed.

Lemma consumed_held method qty_to_sell ledger :
  Forall held ledger → Forall held (consumed method qty_to_sell ledger).2.
Proof.
  intros Hheld. destruct (decide (method = "FIFO")) as [->|Hfifo].
  { rewrite consumed_fifo. by apply fifo_loop_held. }
  destruct (decide (method = "AVG")) as [->|Havg].
  - destruct (decide (0 < total_qty ledger)) as [Hpos|Hpos].
    + eapply Forall_impl; [by apply consumed_avg_clean|]. apply clean_held.
    + by rewrite consumed_avg_empty.
  - by rewrite consumed_unmatched.
Qed.

Lemma process_trade_held ticker method ledger trade ledger' :
  valid trade → Forall held ledger →
  outcome (process_trade ticker method ledger trade) = inr ledger' →
  Forall held ledger'.
Proof.
  intros Hvalid Hheld. destruct (Trade.direction trade) eqn:Hdir.
  - rewrite outcome_process_buy by (done || by apply valid_divisible).
    intros [= <-]. apply Forall_app. split; [done|]. apply Forall_singleton.
    apply Hvalid.
  - rewrite outcome_process_sell by done. intros [= <-]. by apply consumed_held.
Qed.

Lemma ledger_after_held ticker method ledger trades ledger' :
  Forall valid trades → Forall held ledger →
  ledger_after ticker method ledger trades = inr ledger' →
  Forall held ledger'.
Proof.
  intros Hall. revert ledger.
  induction Hall as [|t trades Ht _ IH]; intros ledger Hheld.
  - by intros [= <-].
  - rewrite ledger_after_cons.
    destruct (outcome (process_trade ticker method ledger t)) as [e|l] eqn:Hstep;
      [done|].
    apply IH. by eapply process_trade_held.
Qed.

Lemma reduced_trans lot1 lot2 lot3 :
  reduced lot1 lot2 → reduced lot2 lot3 → reduced lot1 lot3.
Proof.
  unfold reduced. intros (-> & -> & -> & -> & H12) (-> & -> & -> & -> & H23).
  split_and!; try done. by eapply Qcle_trans.
Qed.

Lemma shrinks_trans l1 l2 l3 : shrinks l1 l2 → shrinks l2 l3 → shrinks l1 l3.
Proof.
  intros H12. revert l3.
  induction H12 as [|lot old new _ IH|lot lot' old new Hred _ IH]; intros l3 H23.
  - done.
  - apply shrinks_removed, IH, H23.
  - inversion H23 as [|? ? ? Hrest|? lot'' ? new' Hred' Hrest]; subst.
    + apply shrinks_removed, IH, Hrest.
    + apply shrinks_kept; [by eapply reduced_trans|]. apply IH, Hrest.
Qed.

Lemma shrinks_app l1 l1' l2 l2' :
  shrinks l1 l1' → shrinks l2 l2' → shrinks (l1 ++ l2) (l1' ++ l2').
Proof.
  intros H1 H2. induction H1; simpl; [done|by constructor|by constructor].
Qed.

Lemma shrinks_app_inv l1 l2 l :
  shrinks (l1 ++ l2) l →
  ∃ l1' l2', l = l1' ++ l2' ∧ shrinks l1 l1' ∧ shrinks l2 l2'.
Proof.
  revert l. induction l1 as [|lot l1 IH]; intros l Hl; simpl in Hl.
  - exists [], l. split_and!; [done|constructor|done].
  - inversion Hl as [|? ? ? Hrest|? lot' ? new Hred Hrest]; subst.
    + destruct (IH _ Hrest) as (l1' & l2' & -> & H1 & H2).
      exists l1', l2'. split_and!; [done|by constructor|done].
    + destruct (IH _ Hrest) as (l1' & l2' & -> & H1 & H2).
      exists (lot' :: l1'), l2'. split_and!; [done|by constructor|done].
Qed.

Lemma ledger_after_app ticker method ledger trades1 trades2 :
  ledger_after ticker method ledger (trades1 ++ trades2) =
  match ledger_after ticker method ledger trades1 with
  | inl e => inl e
  | inr ledger' => ledger_after ticker method ledger' trades2
  end.
Proof.
  revert ledger. induction trades1 as [|t trades1 IH]; intros ledger; [done|].
  simpl. rewrite !ledger_after_cons.
  by destruct (outcome (process_trade ticker method ledger t)).
Qed.

(** From any ledger of positive lots, what valid trades leave is what is
    left of that ledger, followed by what is left of the lots bought on the
    way. *)
Lemma ledger_after_shrinks ticker method ledger trades :
  Forall valid trades → Forall held ledger →
  ∃ ledger' kept added,
    ledger_after ticker method ledger trades = inr ledger' ∧
    ledger' = kept ++ added ∧
    shrinks ledger kept ∧
    shrinks (bought trades) added.
Proof.
  intros Hall. revert ledger.
  induction Hall as [|t trades Ht _ IH]; intros ledger Hheld.
  - exists ledger, ledger, []. split_and!; [done|by rewrite app_nil_r| |constructor].
    apply shrinks_refl.
  - rewrite ledger_after_cons. unfold bought.
    destruct (Trade.direction t) eqn:Hdir.
    + rewrite outcome_process_buy by (done || by apply valid_divisible).
      rewrite filter_cons_True, fmap_cons by done.
      destruct (IH (ledger ++ [lot_of_buy t (buy_unit_cost t)]))
        as (ledger' & kept & added & Hrun & -> & Hkept & Hadded).
      { apply Forall_app. split; [done|]. apply Forall_singleton, Ht. }
      apply shrinks_app_inv in Hkept as (kept1 & kept2 & -> & Hkept1 & Hkept2).
      exists ((kept1 ++ kept2) ++ added), kept1, (kept2 ++ added).
      split_and!; [done|by rewrite <-app_assoc|done|].
      by apply (shrinks_app [_]).
    + rewrite outcome_process_sell by done.
      rewrite filter_cons_False by (unfold is_buy; congruence).
      destruct (IH (consumed method (Trade.quantity t) ledger).2)
        as (ledger' & kept & added & Hrun & -> & Hkept & Hadded).
      { by apply consumed_held. }
      exists (kept ++ added), kept, added. split_and!; [done|done| |done].
      eapply shrinks_trans; [|done].
      apply consumed_shrinks; [|done]. apply Qclt_le_weak, Ht.
Qed.

(** C9. A FIFO partial consumption (the amount still to sell is positive
    and smaller than the head lot's quantity) ends the loop with the ledger
    unchanged except for the head lot's quantity: its date, unit cost, price
    paid and fees paid are as before and so is every other lot. And over the
    whole processing of a security's valid trades remaining quantities never
    grow: between any two points of the processing, every lot of the earlier
    ledger is either gone or still in place, in order, with a quantity that
    is not larger and all other fields unchanged, and the lots after them
    are what is left, in the same sense, of the lots bought in between. *)
Theorem lots_only_shrink ticker method before after :
  Forall valid (before ++ after) →
  (∀ qty_to_sell cost_basis head_lot rest,
     0 < qty_to_sell → qty_to_sell < Lot.quantity head_lot →
     ∃ head_lot',
       (fifo_loop qty_to_sell cost_basis (head_lot :: rest)).2 = head_lot' :: rest ∧
       Lot.quantity head_lot' = Lot.quantity head_lot - qty_to_sell ∧
       Lot.date head_lot' = Lot.date head_lot ∧
       Lot.unit_cost head_lot' = Lot.unit_cost head_lot ∧
       Lot.price_paid head_lot' = Lot.price_paid head_lot ∧
       Lot.fees_paid head_lot' = Lot.fees_paid head_lot) ∧
  ∃ ledger ledger' kept added,
    ledger_after ticker method [] before = inr ledger ∧
    ledger_after ticker method [] (before ++ after) = inr ledger' ∧
    ledger' = kept ++ added ∧
    shrinks ledger kept ∧
    shrinks (bought after) added.
Proof.
  intros [Hbefore Hafter]%Forall_app. split.
  { intros qty cb head rest Hpos Hless. rewrite fifo_loop_partial by done.
    by eexists. }
  destruct (ledger_after_returns ticker method [] before) as [ledger Hledger];
    [by apply Forall_valid_divisible|].
  assert (Forall held ledger) as Hheld
    by by apply (ledger_after_held ticker method [] before).
  destruct (ledger_after_shrinks ticker method ledger after Hafter Hheld)
    as (ledger' & kept & added & Hrun & -> & Hkept & Hadded).
  exists ledger, (kept ++ added), kept, added.
  rewrite ledger_after_app, Hledger. by split_and!.
Qed.

Lemma lots_only_shrink_witness :
  Forall valid (two_buys ++ [create_trade 3 "AAPL" SELL 15 180 0]) ∧
  0 < Qc_of_Z 5 ∧ Qc_of_Z 5 < Lot.quantity second_lot ∧
  (∃ head_lot',
     (fifo_loop (Qc_of_Z 5) (Qc_of_Z 1000) [second_lot]).2 = [head_lot'] ∧
     Lot.quantity head_lot' = Lot.quantity second_lot - Qc_of_Z 5 ∧
     Lot.date head_lot' = Lot.date second_lot ∧
     Lot.unit_cost head_lot' = Lot.unit_cost second_lot ∧
     Lot.price_paid head_lot' = Lot.price_paid second_lot ∧
     Lot.fees_paid head_lot' = Lot.fees_paid second_lot) ∧
  ∃ ledger ledger' kept added,
    ledger_after "AAPL" "FIFO" [] two_buys = inr ledger ∧
    ledger_after "AAPL" "FIFO" [] (two_buys ++ [create_trade 3 "AAPL" SELL 15 180 0])
    = inr ledger' ∧
    ledger' = kept ++ added ∧
    shrinks ledger kept ∧
    shrinks (bought [create_trade 3 "AAPL" SELL 15 180 0]) added.
Proof.
  assert (Forall valid (two_buys ++ [create_trade 3 "AAPL" SELL 15 180 0]))
    as Hvalid.
  { apply (bool_decide_unpack _). vm_compute. exact I. }
  assert (0 < Qc_of_Z 5) as Hpos.
  { apply (bool_decide_unpack _). vm_compute. exact I. }
  assert (Qc_of_Z 5 < Lot.quantity second_lot) as Hless.
  { apply (bool_decide_unpack _). vm_compute. exact I. }
  split_and!; [exact Hvalid|exact Hpos|exact Hless| |].
  - exact (proj1 (lots_only_shrink "AAPL" "FIFO" two_buys
                    [create_trade 3 "AAPL" SELL 15 180 0] Hvalid)
             (Qc_of_Z 5) (Qc_of_Z 1000) second_lot [] Hpos Hless).
  - exact (proj2 (lots_only_shrink "AAPL" "FIFO" two_buys
                    [create_trade 3 "AAPL" SELL 15 180 0] Hvalid)).
Defined.

(** * Further properties of the engine *)

(** ** Empty input, and what a call leaves alone *)

(** X1. With no trades loaded, [calculate] returns for every method string
    and leaves [realized_profits] and [open_positions] empty, whatever they
    held before. *)
Theorem calculate_no_trades method self :
  trades self = [] →
  calculate method self = (inr (), result self [] ∅).
Proof. intros Hnil. rewrite calculate_run, Hnil. reflexivity. Qed.

Lemma calculate_no_trades_witness :
  trades __init__ = [] ∧
  calculate "AVG" __init__ = (inr (), result __init__ [] ∅).
Proof.
  assert (trades __init__ = []) as Hnil by reflexivity.
  split; [exact Hnil|]. exact (calculate_no_trades "AVG" __init__ Hnil).
Defined.

(** X2. Whether it returns or raises, [calculate] writes to
    [realized_profits] and [open_positions] only: [trades] and
    [fees_correction] are as before the call. *)
Theorem calculate_frame method self :
  trades (calculate method self).2 = trades self ∧
  fees_correction (calculate method self).2 = fees_correction self.
Proof. by destruct (calculate_state method self) as (cs & o & ->). Qed.

(** ** When the call raises *)

Lemma ledger_after_raises ticker method ledger trades e :
  ledger_after ticker method ledger trades = inl e →
  e = ZeroDivisionError ∧ Exists zero_buy trades.
Proof.
  revert ledger. induction trades as [|t trades IH]; intros ledger; [done|].
  rewrite ledger_after_cons.
  destruct (decide (zero_buy t)) as [[Hbuy Hzero]|Hok].
  - rewrite outcome_process_zero_buy by done. intros [= <-].
    split; [done|]. by left.
  - destruct (process_trade_returns ticker method ledger t) as [ledger' ->].
    { intros Hbuy Hzero. by apply Hok. }
    intros [-> Hex]%IH. split; [done|]. by right.
Qed.

Lemma ledger_after_zero_buy ticker method ledger trades :
  Exists zero_buy trades →
  ledger_after ticker method ledger trades = inl ZeroDivisionError.
Proof.
  intros Hex. revert ledger.
  induction trades as [|t trades IH]; intros ledger; [by inversion Hex|].
  rewrite ledger_after_cons.
  destruct (decide (zero_buy t)) as [[Hbuy Hzero]|Hok].
  - by rewrite outcome_process_zero_buy.
  - destruct (process_trade_returns ticker method ledger t) as [ledger' ->].
    { intros Hbuy Hzero. by apply Hok. }
    apply IH. by inversion Hex.
Qed.

(** The state [process_groups] leaves when a security's loop raises: the
    securities before it are done, and the records that the failing loop
    had appended stay. *)
Lemma process_groups_raises method groups self e :
  (process_groups method groups self).1 = inl e →
  ∃ done g rest,
    groups = done ++ g :: rest ∧
    ledger_after g.1 method [] g.2 = inl e ∧
    (process_groups method groups self).2 =
    emit (closed_by g.1 method [] g.2)
      (result self
         (realized_profits self
          ++ concat ((λ g, closed_by g.1 method [] g.2) <$> done))
         (foldl (λ o g, <[g.1 := ledger_of g.1 method g.2]> o)
                (open_positions self) done)).
Proof.
  revert self. induction groups as [|[k ts] groups IH]; intros self; [done|].
  unfold process_groups. simpl. rewrite bind_run, process_ticker_run.
  destruct (ledger_after k method [] ts) as [e'|ledger] eqn:Hledger.
  - simpl. intros [= <-]. exists [], (k, ts), groups.
    split_and!; [done|done|]. simpl. destruct self. unfold emit, result. simpl.
    by rewrite app_nil_r.
  - fold (process_groups method groups). intros Hraise.
    destruct (IH _ Hraise) as (done & g & rest & -> & Hg & ->).
    exists ((k, ts) :: done), g, rest. split_and!; [done|done|].
    assert (ledger_of k method ts = ledger) as Hof.
    { unfold ledger_of. by rewrite Hledger. }
    unfold emit, result, store. simpl. by rewrite Hof, <-!app_assoc.
Qed.

Lemma calculate_raises_inv method self e :
  (calculate method self).1 = inl e →
  e = ZeroDivisionError ∧ Exists zero_buy (trades self).
Proof.
  rewrite calculate_run, group_by_ticker_eq.
  intros (done & g & rest & Hgroups & Hg & _)%process_groups_raises.
  assert (g ∈ (λ k, (k, filter (has_ticker k) (trades self)))
              <$> tickers (trades self)) as Hin.
  { rewrite Hgroups. apply elem_of_app. right. by left. }
  apply list_elem_of_fmap in Hin as (k & -> & _).
  apply ledger_after_raises in Hg as [-> Hex]. split; [done|].
  apply Exists_exists in Hex as (t & [_ Ht]%list_elem_of_filter & Hzero).
  apply Exists_exists. by exists t.
Qed.

Lemma calculate_zero_buy method self :
  Exists zero_buy (trades self) →
  (calculate method self).1 = inl ZeroDivisionError.
Proof.
  intros Hex.
  destruct ((calculate method self).1) as [e'|[]] eqn:Hcall.
  - by destruct (calculate_raises_inv method self e' Hcall) as [-> _].
  - apply calculate_inv in Hcall.
    apply Exists_exists in Hex as (t & Ht & Hzero).
    destruct (Hcall (Trade.ticker t)) as [ledger Hledger].
    { apply elem_of_tickers. by apply list_elem_of_fmap_2. }
    rewrite ledger_after_zero_buy in Hledger; [done|].
    apply Exists_exists. exists t. split; [|done].
    by apply list_elem_of_filter.
Qed.

(** X3. [calculate] raises exactly when some BUY trade has quantity zero,
    and the exception is then [ZeroDivisionError], from the unit-cost
    division; [list.remove] in the AVG cleanup never raises. *)
Theorem calculate_raises_iff method self e :
  (calculate method self).1 = inl e ↔
  e = ZeroDivisionError ∧ Exists zero_buy (trades self).
Proof.
  split; [apply calculate_raises_inv|].
  intros [-> Hex]. by apply calculate_zero_buy.
Qed.

Lemma closed_by_raises ticker method ledger trades e :
  ledger_after ticker method ledger trades = inl e →
  ∃ before failing after,
    trades = before ++ failing :: after ∧
    Forall divisible before ∧ zero_buy failing ∧
    closed_by ticker method ledger trades = closed_by ticker method ledger before.
Proof.
  revert ledger. induction trades as [|t trades IH]; intros ledger; [done|].
  rewrite ledger_after_cons.
  destruct (decide (zero_buy t)) as [[Hbuy Hzero]|Hok].
  - intros _. exists [], t, trades. split_and!; [done|done|done|].
    rewrite closed_by_cons, emitted_process_buy by done.
    by rewrite outcome_process_zero_buy.
  - assert (divisible t) as Hdiv.
    { intros Hbuy Hzero. by apply Hok. }
    destruct (process_trade_returns ticker method ledger t Hdiv)
      as [ledger' Hstep].
    rewrite Hstep. intros (before & failing & after & -> & Hbefore & Hfail & Hcl)%IH.
    exists (t :: before), failing, after. split_and!; [done| |done|].
    + by constructor.
    + by rewrite !closed_by_cons, Hstep, Hcl.
Qed.

Lemma lookup_foldl_insert (G : string → list Lot.t) ks
    (o : gmap string (list Lot.t)) k :
  foldl (λ o k', <[k' := G k']> o) o ks !! k
  = if decide (k ∈ ks) then Some (G k) else o !! k.
Proof.
  revert o. induction ks as [|k' ks IH]; intros o; simpl; [done|].
  rewrite IH. destruct (decide (k ∈ ks)) as [Hin|Hin].
  - rewrite decide_True; [done|]. by right.
  - destruct (decide (k' = k)) as [->|Hne].
    + rewrite lookup_insert_eq, decide_True; [done|]. by left.
    + rewrite lookup_insert_ne, decide_False; [done| |done].
      rewrite not_elem_of_cons. split; [congruence|done].
Qed.

(** X4. A call that raises leaves partial results behind. The securities
    are processed in order of first appearance; those before the one with
    the zero-quantity BUY keep their records and their open-position entry,
    the failing security keeps the records of its sales before that BUY and
    gets no entry, and the securities after it are absent from both. *)
Theorem calculate_partial_results method self e :
  (calculate method self).1 = inl e →
  ∃ done k rest before failing after,
    tickers (trades self) = done ++ k :: rest ∧
    filter (has_ticker k) (trades self) = before ++ failing :: after ∧
    Forall divisible before ∧ zero_buy failing ∧
    realized_profits (calculate method self).2
    = concat ((λ k', closed_by k' method []
                       (filter (has_ticker k') (trades self))) <$> done)
      ++ closed_by k method [] before ∧
    ∀ k', open_positions (calculate method self).2 !! k'
          = if decide (k' ∈ done)
            then Some (ledger_of k' method (filter (has_ticker k') (trades self)))
            else None.
Proof.
  rewrite calculate_run, group_by_ticker_eq.
  intros (done & g & rest & Hgroups & Hg & ->)%process_groups_raises.
  apply fmap_app_inv in Hgroups as (ks1 & ks2 & -> & Hrest & Hks).
  symmetry in Hrest. apply fmap_cons_inv in Hrest as (k & ks3 & -> & -> & ->).
  simpl in Hg.
  destruct (closed_by_raises _ _ _ _ _ Hg)
    as (before & failing & after & Hsplit & Hbefore & Hfail & Hclosed).
  exists ks1, k, ks3, before, failing, after.
  split_and!; [done|done|done|done| |].
  - unfold emit, result. cbn [realized_profits fst snd].
    by rewrite Hclosed, <-list_fmap_compose.
  - intros k'. unfold emit, result. cbn [open_positions].
    rewrite (foldl_insert_fmap _ (λ g, ledger_of g.1 method g.2)).
    cbn beta. cbn [fst snd].
    by rewrite (lookup_foldl_insert
      (λ k, ledger_of k method (filter (has_ticker k) (trades self)))).
Qed.

Lemma calculate_partial_results_witness :
  (calculate "FIFO" (with_trades zero_buy_in_the_middle)).1
  = inl ZeroDivisionError ∧
  ∃ done k rest before failing after,
    tickers zero_buy_in_the_middle = done ++ k :: rest ∧
    filter (has_ticker k) zero_buy_in_the_middle = before ++ failing :: after ∧
    Forall divisible before ∧ zero_buy failing ∧
    realized_profits (calculate "FIFO" (with_trades zero_buy_in_the_middle)).2
    = concat ((λ k', closed_by k' "FIFO" []
                       (filter (has_ticker k') zero_buy_in_the_middle)) <$> done)
      ++ closed_by k "FIFO" [] before ∧
    ∀ k', open_positions (calculate "FIFO" (with_trades zero_buy_in_the_middle)).2
          !! k'
          = if decide (k' ∈ done)
            then Some (ledger_of k' "FIFO"
                         (filter (has_ticker k') zero_buy_in_the_middle))
            else None.
Proof.
  assert ((calculate "FIFO" (with_trades zero_buy_in_the_middle)).1
          = inl ZeroDivisionError) as Hraise.
  { vm_compute. reflexivity. }
  split; [exact Hraise|].
  exact (calculate_partial_results "FIFO" (with_trades zero_buy_in_the_middle)
           ZeroDivisionError Hraise).
Defined.

Lemma calculate_raises_iff_witness :
  ZeroDivisionError = ZeroDivisionError ∧
  Exists zero_buy (trades (with_trades zero_buy_in_the_middle)) ∧
  (calculate "AVG" (with_trades zero_buy_in_the_middle)).1
  = inl ZeroDivisionError.
Proof.
  assert (Exists zero_buy (trades (with_trades zero_buy_in_the_middle))) as Hex.
  { apply (bool_decide_unpack _). vm_compute. exact I. }
  split_and!; [reflexivity|exact Hex|].
  exact (proj2 (calculate_raises_iff "AVG" (with_trades zero_buy_in_the_middle)
                  ZeroDivisionError) (conj eq_refl Hex)).
Defined.

(** ** What one sale consumes *)

Lemma fifo_loop_split qty_to_sell cost_basis ledger :
  ∃ sold rest,
    ledger = sold ++ rest ∧ exhausts qty_to_sell sold ∧
    (((rest = [] ∨ ¬ 0 < left_to_sell qty_to_sell sold) ∧
      fifo_loop qty_to_sell cost_basis ledger
      = (left_to_sell qty_to_sell sold, accrued cost_basis sold, rest)) ∨
     (∃ head_lot later,
        rest = head_lot :: later ∧
        0 < left_to_sell qty_to_sell sold ∧
        ¬ Lot.quantity head_lot ≤ left_to_sell qty_to_sell sold ∧
        fifo_loop qty_to_sell cost_basis ledger
        = (0,
           accrued cost_basis sold
           + left_to_sell qty_to_sell sold * Lot.unit_cost head_lot,
           Lot.set_quantity head_lot
             (Lot.quantity head_lot - left_to_sell qty_to_sell sold) :: later))).
Proof.
  revert qty_to_sell cost_basis.
  induction ledger as [|head_lot ledger IH]; intros qty cb.
  - exists [], []. split_and!; [done..|]. left. split; [by left|done].
  - simpl. destruct (decide (0 < qty)) as [Hpos|Hpos].
    + destruct (decide (Lot.quantity head_lot ≤ qty)) as [Hle|Hle].
      * destruct (IH (qty - Lot.quantity head_lot)
                     (cb + Lot.quantity head_lot * Lot.unit_cost head_lot))
          as (sold & rest & -> & Hsold & Hcase).
        exists (head_lot :: sold), rest. split_and!; [done|done|exact Hcase].
      * exists [], (head_lot :: ledger). split_and!; [done..|]. right.
        by exists head_lot, ledger.
    + exists [], (head_lot :: ledger). split_and!; [done..|]. left.
      split; [by right|done].
Qed.

(** X5. Under FIFO a sale consumes the ledger from its head. It pops a lot
    while something is left to sell and the lot is not larger than that;
    it then stops, at the end of the ledger or with nothing left to sell, or
    takes what is left from the next lot, which stays with its quantity
    reduced by that. Every later lot is untouched. The cost basis is
    accumulated lot by lot, each popped lot at its quantity times its unit
    cost and the partial lot at what was taken from it. *)
Theorem fifo_consumes_oldest_first qty_to_sell ledger :
  ∃ sold rest,
    ledger = sold ++ rest ∧ exhausts qty_to_sell sold ∧
    (((rest = [] ∨ ¬ 0 < left_to_sell qty_to_sell sold) ∧
      outcome (consume "FIFO" qty_to_sell ledger)
      = inr (accrued 0 sold, rest)) ∨
     (∃ head_lot later,
        rest = head_lot :: later ∧
        0 < left_to_sell qty_to_sell sold ∧
        ¬ Lot.quantity head_lot ≤ left_to_sell qty_to_sell sold ∧
        outcome (consume "FIFO" qty_to_sell ledger)
        = inr (accrued 0 sold
               + left_to_sell qty_to_sell sold * Lot.unit_cost head_lot,
               Lot.set_quantity head_lot
                 (Lot.quantity head_lot - left_to_sell qty_to_sell sold)
               :: later))).
Proof.
  rewrite outcome_consume, consumed_fifo.
  destruct (fifo_loop_split qty_to_sell 0 ledger)
    as (sold & rest & Hsplit & Hsold & [[Hstop ->]|Hpart]).
  - exists sold, rest. split_and!; [done..|]. by left.
  - destruct Hpart as (head_lot & later & Hrest & Hpos & Hgt & ->).
    exists sold, rest. split_and!; [done..|]. right. by exists head_lot, later.
Qed.

(** X7. With a positive total, the AVG branch multiplies the quantity of
    every lot by the same ratio and leaves the other fields alone, and its
    cleanup, which removes lots by value, drops exactly the lots that are
    then below 1e-9: the others stay, in order, also when lots are equal.
    The cost basis is the sold quantity at the average unit cost. *)
Theorem avg_scales_every_lot qty_to_sell ledger :
  0 < total_qty ledger →
  outcome (consume "AVG" qty_to_sell ledger)
  = inr (qty_to_sell * (total_cost ledger / total_qty ledger),
         filter clean
           (scale ((total_qty ledger - qty_to_sell) / total_qty ledger)
            <$> ledger)).
Proof. intros Hpos. by rewrite outcome_consume, consumed_avg. Qed.

Lemma avg_scales_every_lot_witness :
  0 < total_qty twenty_held ∧
  outcome (consume "AVG" (Qc_of_Z 15) twenty_held)
  = inr (Qc_of_Z 15 * (total_cost twenty_held / total_qty twenty_held),
         filter clean
           (scale ((total_qty twenty_held - Qc_of_Z 15) / total_qty twenty_held)
            <$> twenty_held)).
Proof.
  assert (0 < total_qty twenty_held) as Hpos.
  { apply (bool_decide_unpack _). vm_compute. exact I. }
  split; [exact Hpos|]. exact (avg_scales_every_lot (Qc_of_Z 15) twenty_held Hpos).
Defined.

Lemma consumed_single method lot qty_to_sell :
  method = "FIFO" ∨ method = "AVG" →
  held lot → Lot.quantity lot ≤ qty_to_sell →
  consumed method qty_to_sell [lot]
  = (if decide (method = "FIFO") then accrued 0 [lot]
     else qty_to_sell * (total_cost [lot] / total_qty [lot]),
     []).
Proof.
  intros [-> | ->] Hheld Hle.
  - rewrite decide_True by done. rewrite consumed_fifo, fifo_loop_exhausts; [done|].
    unfold held in Hheld. simpl. split_and!; [|done..].
    by eapply Qclt_le_trans.
  - rewrite decide_False by done.
    assert (total_qty [lot] = Lot.quantity lot) as Htotal.
    { rewrite total_qty_cons. change (total_qty []) with 0. ring. }
    assert (0 < total_qty [lot]) as Hpos by by rewrite Htotal.
    rewrite consumed_avg by done. f_equal.
    apply nonpositive_ratio_empties; [by apply Forall_singleton|].
    rewrite Htotal. unfold held in Hheld. qc2q.
    apply Qle_shift_div_r; [done|]. lra.
Qed.

(** X9. A BUY of a positive quantity followed by a SELL of at least that
    quantity of the same security, under FIFO or AVG: the call returns one
    ClosedTrade and leaves the security with an empty ledger. The cost basis
    is the lot's quantity times its unit cost under FIFO, and the sold
    quantity times the average unit cost of that one lot under AVG. *)
Theorem buy_then_sell_everything method buy sell :
  method = "FIFO" ∨ method = "AVG" →
  is_buy buy → is_sell sell → Trade.ticker sell = Trade.ticker buy →
  0 < Trade.quantity buy → Trade.quantity buy ≤ Trade.quantity sell →
  let r := calculate method (with_trades [buy; sell]) in
  let lot := lot_of_buy buy (buy_unit_cost buy) in
  let cost_basis :=
    if decide (method = "FIFO") then accrued 0 [lot]
    else Trade.quantity sell * (total_cost [lot] / total_qty [lot]) in
  r.1 = inr () ∧
  realized_profits r.2
  = [close_trade (Trade.ticker buy) method sell cost_basis] ∧
  open_positions r.2 = {[ Trade.ticker buy := [] ]} ∧
  get_total_profit r.2 = py_sum [proceeds sell - cost_basis].
Proof.
  intros Hmethod Hbuy Hsell Hticker Hpos Hqty.
  assert (Trade.quantity buy ≠ 0) as Hnz.
  { intros Heq. rewrite Heq in Hpos. by apply Qclt_not_eq in Hpos. }
  assert (Forall divisible [buy; sell]) as Hdiv.
  { apply Forall_cons. split; [by intros _|]. apply Forall_singleton.
    unfold is_sell in Hsell. intros ?. congruence. }
  cbv zeta. rewrite calculate_with_trades by done.
  assert (tickers [buy; sell] = [Trade.ticker buy]) as Htickers.
  { assert (tickers [buy] = [Trade.ticker buy]) as Hfirst by reflexivity.
    change [buy; sell] with ([buy] ++ [sell]).
    rewrite tickers_snoc, Hfirst, decide_True; [done|]. rewrite Hticker. by left. }
  assert (filter (has_ticker (Trade.ticker buy)) [buy; sell] = [buy; sell])
    as Hfilter.
  { by rewrite !filter_cons_True. }
  pose proof (consumed_single method (lot_of_buy buy (buy_unit_cost buy))
                (Trade.quantity sell) Hmethod Hpos Hqty) as Hconsumed.
  assert (closed_by (Trade.ticker buy) method [] [buy; sell]
          = [close_trade (Trade.ticker buy) method sell
               (consumed method (Trade.quantity sell)
                  [lot_of_buy buy (buy_unit_cost buy)]).1]) as Hclosed.
  { rewrite closed_by_cons, emitted_process_buy, outcome_process_buy by done.
    by rewrite closed_by_cons, emitted_process_sell, outcome_process_sell by done. }
  assert (ledger_of (Trade.ticker buy) method [buy; sell] = []) as Hledger.
  { unfold ledger_of.
    rewrite ledger_after_cons, outcome_process_buy by done.
    rewrite ledger_after_cons, outcome_process_sell by done.
    simpl. by rewrite Hconsumed. }
  unfold result, realized_of, open_of, get_total_profit.
  cbn [fst snd realized_profits open_positions].
  rewrite Htickers. cbn [fmap list_fmap concat foldl].
  rewrite Hfilter, Hclosed, Hledger, Hconsumed, app_nil_r.
  split_and!; done.
Qed.

Lemma buy_then_sell_everything_witness :
  ("AVG" = "FIFO" ∨ "AVG" = "AVG") ∧
  is_buy (create_trade 1 "AAPL" BUY 10 100 5) ∧
  is_sell (create_trade 2 "AAPL" SELL 10 150 5) ∧
  Trade.ticker (create_trade 2 "AAPL" SELL 10 150 5)
  = Trade.ticker (create_trade 1 "AAPL" BUY 10 100 5) ∧
  0 < Trade.quantity (create_trade 1 "AAPL" BUY 10 100 5) ∧
  Trade.quantity (create_trade 1 "AAPL" BUY 10 100 5)
  ≤ Trade.quantity (create_trade 2 "AAPL" SELL 10 150 5) ∧
  open_positions (calculate "AVG" (with_trades buy_then_sell_all)).2
  = {[ "AAPL" := [] ]}.
Proof.
  assert (0 < Trade.quantity (create_trade 1 "AAPL" BUY 10 100 5)) as Hpos.
  { apply (bool_decide_unpack _). vm_compute. exact I. }
  assert (Trade.quantity (create_trade 1 "AAPL" BUY 10 100 5)
          ≤ Trade.quantity (create_trade 2 "AAPL" SELL 10 150 5)) as Hle.
  { apply (bool_decide_unpack _). vm_compute. exact I. }
  split_and!; [by right|reflexivity|reflexivity|reflexivity|exact Hpos|exact Hle|].
  exact (proj1 (proj2 (proj2
    (buy_then_sell_everything "AVG" (create_trade 1 "AAPL" BUY 10 100 5)
       (create_trade 2 "AAPL" SELL 10 150 5) (or_intror eq_refl)
       eq_refl eq_refl eq_refl Hpos Hle)))).
Defined.

(** ** The records and the total profit *)

Lemma closed_by_consistent ticker method ledger trades :
  Forall consistent (closed_by ticker method ledger trades).
Proof.
  revert ledger. induction trades as [|t trades IH]; intros ledger.
  - constructor.
  - rewrite closed_by_cons. apply Forall_app. split.
    + destruct (Trade.direction t) eqn:Hdir.
      * rewrite emitted_process_buy by done. constructor.
      * rewrite emitted_process_sell by done. by apply Forall_singleton.
    + destruct (outcome (process_trade ticker method ledger t)) as [e|ledger'];
        [constructor|apply IH].
Qed.

Lemma process_groups_consistent method groups self :
  Forall consistent (realized_profits self) →
  Forall consistent (realized_profits (process_groups method groups self).2).
Proof.
  revert self. induction groups as [|[k ts] groups IH]; intros self Hself; [done|].
  unfold process_groups. simpl. rewrite bind_run, process_ticker_run.
  assert (Forall consistent
            (realized_profits (emit (closed_by k method [] ts) self))) as Hemit.
  { simpl. apply Forall_app. split; [done|apply closed_by_consistent]. }
  destruct (ledger_after k method [] ts) as [e|ledger]; [done|].
  fold (process_groups method groups). by apply IH.
Qed.

(** X10. Whether [calculate] returns or raises, every record it leaves in
    [realized_profits] carries proceeds equal to the sale's price times its
    quantity minus its fee, and a profit equal to those proceeds minus the
    cost basis, under every method; so [get_total_profit] is the sum, in
    the order of the records, of proceeds minus cost basis. *)
Theorem realized_profit_consistent method self :
  let r := (calculate method self).2 in
  Forall consistent (realized_profits r) ∧
  get_total_profit r
  = py_sum ((λ c, ClosedTrade.sale_proceeds c - ClosedTrade.cost_basis c)
            <$> realized_profits r).
Proof.
  assert (Forall consistent (realized_profits (calculate method self).2)) as Hall.
  { rewrite calculate_run. by apply process_groups_consistent. }
  split; [done|]. unfold get_total_profit. f_equal.
  apply list_fmap_ext. intros i c Hc.
  rewrite Forall_forall in Hall. apply Hall. by eapply list_elem_of_lookup_2.
Qed.

Lemma returns_divisible method self :
  (calculate method self).1 = inr () → Forall divisible (trades self).
Proof.
  intros Hret.
  assert (¬ Exists zero_buy (trades self)) as Hnone.
  { intros Hex.
    pose proof (calculate_zero_buy method self Hex) as Hraise.
    rewrite Hret in Hraise. discriminate Hraise. }
  apply not_Exists_Forall in Hnone; [|apply _].
  eapply Forall_impl; [done|]. intros t Hnot Hbuy Hzero. by apply Hnot.
Qed.

(** ** The order of the output and the grouping *)

Lemma fmap_concat_fmap {A B C} (f : B → C) (F : A → list B) (ks : list A) :
  f <$> concat (F <$> ks) = concat ((λ k, f <$> F k) <$> ks).
Proof.
  induction ks as [|k ks IH]; [done|].
  rewrite !fmap_cons.
  change (concat (F k :: (F <$> ks))) with (F k ++ concat (F <$> ks)).
  rewrite fmap_app, IH. done.
Qed.

Lemma fmap_constant {A B} (f : A → B) (c : B) (l : list A) :
  (∀ x, x ∈ l → f x = c) → f <$> l = replicate (length l) c.
Proof.
  induction l as [|x l IH]; intros Hc; [done|].
  rewrite fmap_cons. simpl. rewrite Hc by by left.
  rewrite IH; [done|]. intros y Hy. apply Hc. by right.
Qed.

(** X12. [realized_profits] is ordered by security, not by date: the
    securities come in the order of their first trade in the input, and
    each contributes one record per SELL, its records side by side. *)
Theorem realized_profits_order method self :
  (calculate method self).1 = inr () →
  ClosedTrade.ticker <$> realized_profits (calculate method self).2
  = concat ((λ k, replicate
                    (length (filter is_sell
                               (filter (has_ticker k) (trades self)))) k)
            <$> tickers (trades self)).
Proof.
  intros Hret. pose proof (returns_divisible _ _ Hret) as Hdiv.
  rewrite calculate_returns by by apply divisible_completes.
  unfold result, realized_of. cbn [snd realized_profits].
  rewrite fmap_concat_fmap. f_equal. apply list_fmap_ext. intros i k Hk.
  rewrite <-(length_closed_by k method []) by by apply Forall_filter_has_ticker.
  apply fmap_constant. intros c. apply closed_by_ticker.
Qed.

Lemma realized_profits_order_witness :
  (calculate "FIFO" (with_trades crossed_sales)).1 = inr () ∧
  ClosedTrade.ticker
    <$> realized_profits (calculate "FIFO" (with_trades crossed_sales)).2
  = ["AAPL"; "MSFT"] ∧
  ClosedTrade.date
    <$> realized_profits (calculate "FIFO" (with_trades crossed_sales)).2
  = [4%Z; 3%Z].
Proof.
  assert ((calculate "FIFO" (with_trades crossed_sales)).1 = inr ()) as Hret.
  { vm_compute. reflexivity. }
  split_and!; [exact Hret| |vm_compute; reflexivity].
  exact (realized_profits_order "FIFO" (with_trades crossed_sales) Hret).
Defined.

Lemma dict_append_Permutation k v d :
  concat (snd <$> dict_append k v d) ≡ₚ concat (snd <$> d) ++ [v].
Proof.
  induction d as [|[k' vs] d IH]; simpl; [done|].
  case_decide; simpl.
  - rewrite <-!app_assoc. apply Permutation_app_head, Permutation_app_comm.
  - rewrite IH. by rewrite app_assoc.
Qed.

Lemma first_before_snoc (ks : list string) k n k1 k2 :
  ks !! n = Some k1 → (∀ m, ks !! m = Some k2 → (n < m)%nat) →
  ∀ m, (ks ++ [k]) !! m = Some k2 → (n < m)%nat.
Proof.
  intros Hn Hlater m Hm. destruct (ks !! m) as [k'|] eqn:Hl.
  - rewrite (lookup_app_l_Some _ _ _ _ Hl) in Hm. apply Hlater. congruence.
  - apply lookup_lt_Some in Hn. apply lookup_ge_None in Hl. lia.
Qed.

(** The keys come in the order in which the securities first appear: a key
    that comes before another one first occurs in the input before every
    occurrence of the other. *)
Lemma tickers_order l i j k1 k2 :
  tickers l !! i = Some k1 → tickers l !! j = Some k2 → (i < j)%nat →
  ∃ n, (Trade.ticker <$> l) !! n = Some k1 ∧
       ∀ m, (Trade.ticker <$> l) !! m = Some k2 → (n < m)%nat.
Proof.
  revert i j k1 k2. induction l as [|t l IH] using rev_ind; intros i j k1 k2.
  { done. }
  rewrite tickers_snoc, fmap_app. case_decide as Hin.
  - intros Hi Hj Hij. destruct (IH i j k1 k2 Hi Hj Hij) as (n & Hn & Hlater).
    exists n. split; [by apply lookup_app_l_Some|].
    by eapply first_before_snoc.
  - intros Hi Hj Hij. pose proof (lookup_lt_Some _ _ _ Hj) as Hlen.
    rewrite length_app in Hlen. simpl in Hlen.
    destruct (decide (j < length (tickers l))%nat) as [Hold|Hlast].
    + rewrite lookup_app_l in Hi by lia. rewrite lookup_app_l in Hj by lia.
      destruct (IH i j k1 k2 Hi Hj Hij) as (n & Hn & Hlater).
      exists n. split; [by apply lookup_app_l_Some|].
      by eapply first_before_snoc.
    + rewrite lookup_app_l in Hi by lia.
      rewrite lookup_app_r in Hj by lia.
      replace (j - length (tickers l))%nat with 0%nat in Hj by lia.
      injection Hj as <-.
      assert (k1 ∈ Trade.ticker <$> l) as Hk1.
      { apply elem_of_tickers. by eapply list_elem_of_lookup_2. }
      apply list_elem_of_lookup_1 in Hk1 as [n Hn].
      exists n. split; [by apply lookup_app_l_Some|].
      eapply first_before_snoc; [done|].
      intros m Hm. destruct Hin. apply elem_of_tickers.
      by eapply list_elem_of_lookup_2.
Qed.

(** X13. The grouping loop of [calculate] loses no trade and invents none:
    [trades_by_ticker] has one key per security of the input, each mapped
    to a non-empty list, that security's trades in input order, and all
    groups together are a rearrangement of the input. The keys are in the
    order in which the securities first appear in the input. *)
Theorem trades_by_ticker_groups l :
  NoDup (fst <$> group_by_ticker l) ∧
  (∀ k, k ∈ fst <$> group_by_ticker l ↔ k ∈ Trade.ticker <$> l) ∧
  (∀ k ts, (k, ts) ∈ group_by_ticker l →
           ts = filter (has_ticker k) l ∧ ts ≠ []) ∧
  concat (snd <$> group_by_ticker l) ≡ₚ l ∧
  fst <$> group_by_ticker l = tickers l ∧
  (∀ i j k1 k2,
     (fst <$> group_by_ticker l) !! i = Some k1 →
     (fst <$> group_by_ticker l) !! j = Some k2 → (i < j)%nat →
     ∃ n, (Trade.ticker <$> l) !! n = Some k1 ∧
          ∀ m, (Trade.ticker <$> l) !! m = Some k2 → (n < m)%nat).
Proof.
  assert (fst <$> group_by_ticker l = tickers l) as Hkeys.
  { rewrite group_by_ticker_eq, <-list_fmap_compose.
    rewrite <-(list_fmap_id (tickers l)) at 2. by apply list_fmap_ext. }
  split_and!.
  - rewrite Hkeys. apply NoDup_tickers.
  - intros k. rewrite Hkeys. apply elem_of_tickers.
  - intros k ts. rewrite group_by_ticker_eq.
    intros (k' & [= -> ->] & Hk)%list_elem_of_fmap. split; [done|].
    intros Hnil. apply elem_of_tickers, list_elem_of_fmap in Hk as (t & -> & Ht).
    eapply (filter_nil_not_elem_of (has_ticker (Trade.ticker t))); done.
  - induction l as [|t l IH] using rev_ind; [done|].
    rewrite group_by_ticker_snoc, dict_append_Permutation.
    apply Permutation_app_tail, IH.
    rewrite group_by_ticker_eq, <-list_fmap_compose.
    rewrite <-(list_fmap_id (tickers l)) at 2. by apply list_fmap_ext.
  - done.
  - rewrite Hkeys. apply tickers_order.
Qed.

(** * Loading the trades *)

(** ** The rows that are kept *)

Lemma read_rows rows trades :
  foldl read_row trades rows = trades ++ omap trade_of_row rows.
Proof.
  revert trades. induction rows as [|row rows IH]; intros trades; simpl.
  - by rewrite app_nil_r.
  - rewrite IH. unfold read_row, trade_of_row.
    destruct (Row.Ticker row) as [ticker|]; simpl; [|done].
    destruct (row_to_trade ticker row); simpl; [|done].
    by rewrite <-app_assoc.
Qed.

Lemma load_trades_run rows self :
  load_trades rows self =
  (inr (), {| trades := sorted_by_date (omap trade_of_row rows);
              fees_correction := fees_correction self;
              realized_profits := realized_profits self;
              open_positions := open_positions self |}).
Proof. unfold load_trades. by rewrite read_rows. Qed.

(** ** The sort *)

Lemma filter_insert_by_date d trade l :
  filter (on_date d) (insert_by_date trade l) = filter (on_date d) (trade :: l).
Proof.
  induction l as [|x l IH]; [done|]. simpl. case_decide as Hle; [done|].
  rewrite filter_cons, IH, !filter_cons. unfold on_date.
  repeat case_decide; try done. lia.
Qed.

Lemma filter_sorted_by_date d l :
  filter (on_date d) (sorted_by_date l) = filter (on_date d) l.
Proof.
  induction l as [|x l IH]; [done|]. unfold sorted_by_date. simpl.
  fold (sorted_by_date l). by rewrite filter_insert_by_date, !filter_cons, IH.
Qed.

Lemma insert_by_date_Permutation trade l : insert_by_date trade l ≡ₚ trade :: l.
Proof.
  induction l as [|x l IH]; [done|]. simpl. case_decide; [done|].
  rewrite IH. apply Permutation_swap.
Qed.

Lemma sorted_by_date_Permutation l : sorted_by_date l ≡ₚ l.
Proof.
  induction l as [|x l IH]; [done|]. unfold sorted_by_date. simpl.
  fold (sorted_by_date l). by rewrite insert_by_date_Permutation, IH.
Qed.

Lemma insert_by_date_sorted trade l :
  StronglySorted by_date l → StronglySorted by_date (insert_by_date trade l).
Proof.
  induction 1 as [|x l Hl IH Hx]; simpl.
  - repeat constructor.
  - case_decide as Hle.
    + constructor; [by constructor|]. constructor; [done|].
      eapply Forall_impl; [done|]. intros y Hy. unfold by_date in *. lia.
    + constructor; [done|]. rewrite insert_by_date_Permutation.
      constructor; [|done]. unfold by_date. lia.
Qed.

Lemma sorted_by_date_sorted l : StronglySorted by_date (sorted_by_date l).
Proof.
  induction l as [|x l IH]; [constructor|].
  by apply insert_by_date_sorted.
Qed.

(** Two lists in date order that hold the same trades on each date, in the
    same order, are the same list. *)
Lemma stable_sort_unique l1 l2 :
  StronglySorted by_date l1 → StronglySorted by_date l2 →
  (∀ d, filter (on_date d) l1 = filter (on_date d) l2) →
  l1 = l2.
Proof.
  intros Hl1. revert l2.
  induction Hl1 as [|a l1 Hl1 IH Ha]; intros l2 Hl2 Heq.
  - destruct l2 as [|b l2]; [done|].
    specialize (Heq (Trade.date b)).
    by rewrite filter_cons_True in Heq by reflexivity.
  - destruct Hl2 as [|b l2 Hl2 Hb].
    { specialize (Heq (Trade.date a)).
      by rewrite filter_cons_True in Heq by reflexivity. }
    assert (Trade.date a = Trade.date b) as Hdate.
    { assert (b ∈ a :: l1) as Hin1.
      { eapply (list_elem_of_filter (on_date (Trade.date b))).
        rewrite Heq, filter_cons_True by reflexivity. by left. }
      assert (a ∈ b :: l2) as Hin2.
      { eapply (list_elem_of_filter (on_date (Trade.date a))).
        rewrite <-Heq, filter_cons_True by reflexivity. by left. }
      rewrite Forall_forall in Ha, Hb. unfold by_date in *.
      apply elem_of_cons in Hin1 as [->|Hin1]; [done|].
      apply elem_of_cons in Hin2 as [->|Hin2]; [done|].
      specialize (Ha _ Hin1). specialize (Hb _ Hin2). lia. }
    pose proof (Heq (Trade.date a)) as Hhead.
    rewrite filter_cons_True, (filter_cons_True _ b) in Hhead by (by unfold on_date).
    injection Hhead as <- Htail. f_equal. apply IH; [done|].
    intros d. destruct (decide (d = Trade.date a)) as [->|Hd]; [done|].
    specialize (Heq d). rewrite !filter_cons_False in Heq; [done|unfold on_date; congruence..].
Qed.

(** ** What a loaded trade looks like *)

Lemma trade_of_row_inv row trade :
  trade_of_row row = Some trade →
  ∃ date ticker quantity price fee amount,
    Row.Date row = Some date ∧ Row.Ticker row = Some ticker ∧
    Row.Quantity row = Some quantity ∧ Row.Price row = Some price ∧
    Row.Fee row = Some fee ∧ Row.Amount row = Some amount ∧
    trade = Trade.mk date ticker (parse_direction (Row.Direction row))
                     (Qcabs.Qcabs quantity) price (Qcabs.Qcabs fee)
                     (Qcabs.Qcabs amount) (Row.Date_str row).
Proof.
  unfold trade_of_row, row_to_trade. intros Hrow.
  destruct (Row.Ticker row) as [ticker|]; simplify_option_eq.
  by eexists _, _, _, _, _, _.
Qed.

(** ** Loading, then calculating *)

Lemma zero_buy_loaded rows :
  Exists zero_buy (omap trade_of_row rows) ↔ Exists zero_buy_row rows.
Proof.
  rewrite !Exists_exists. split.
  - intros (trade & (row & Hin & Hrow)%list_elem_of_omap & Hbuy & Hzero).
    exists row. split; [done|]. split; [by exists trade|].
    apply trade_of_row_inv in Hrow
      as (date & ticker & quantity & price & fee & amount
          & _ & _ & Hq & _ & _ & _ & ->).
    unfold is_buy in Hbuy. cbn [Trade.direction Trade.quantity] in *.
    split; [done|]. rewrite Hq. f_equal. by apply Qcabs.Qcabs_null.
  - intros (row & Hin & [trade Hrow] & Hbuy & Hzero).
    exists trade. split; [apply list_elem_of_omap; by exists row|].
    apply trade_of_row_inv in Hrow
      as (date & ticker & quantity & price & fee & amount
          & _ & _ & Hq & _ & _ & _ & ->).
    split; [done|]. simpl. rewrite Hq in Hzero. injection Hzero as ->.
    by_computation.
Qed.

(** X16. After [load_trades], [calculate] raises exactly when a row that
    was kept reads as a BUY and has quantity zero in the file. *)
Theorem load_then_calculate_raises_iff rows method self e :
  (calculate method (load_trades rows self).2).1 = inl e ↔
  e = ZeroDivisionError ∧ Exists zero_buy_row rows.
Proof.
  rewrite <-zero_buy_loaded, <-(sorted_by_date_Permutation (omap _ _)).
  rewrite load_trades_run. split.
  - apply calculate_raises_inv.
  - intros [-> Hex]. by apply calculate_zero_buy.
Qed.

Lemma load_then_calculate_raises_iff_witness :
  Exists zero_buy_row rows_with_zero_buy ∧
  (calculate "AVG" (load_trades rows_with_zero_buy __init__).2).1
  = inl ZeroDivisionError.
Proof.
  assert (Exists zero_buy_row rows_with_zero_buy) as Hex.
  { apply Exists_app. right. apply Exists_cons_hd.
    split_and!; [by eexists|by_computation|done]. }
  split; [exact Hex|].
  exact (proj2 (load_then_calculate_raises_iff rows_with_zero_buy "AVG" __init__
                  ZeroDivisionError) (conj eq_refl Hex)).
Defined.

(** ** The direction of a row *)

Lemma py_in_spec sub s :
  py_in sub s = true ↔ ∃ pre post, s = pre ++ sub ++ post.
Proof.
  induction s as [|c s IH]; simpl.
  - rewrite orb_false_r, bool_decide_eq_true. split.
    + intros [k ->]. by exists [], k.
    + intros (pre & post & Heq). symmetry in Heq.
      apply app_eq_nil in Heq as [-> Heq]. by exists post.
  - rewrite orb_true_iff, bool_decide_eq_true, IH. split.
    + intros [[k ->]|(pre & post & ->)]; [by exists [], k|].
      by exists (c :: pre), post.
    + intros ([|c' pre] & post & Heq); [left; by exists post|].
      right. injection Heq as <- ->. by exists pre, post.
Qed.

Lemma py_lstrip_spec s : ∃ l, s = l ++ py_lstrip s.
Proof.
  induction s as [|c s [l IH]]; simpl; [by exists []|].
  destruct (py_isspace c); [|by exists []].
  exists (c :: l). simpl. by f_equal.
Qed.

Lemma py_strip_spec s : ∃ l r, s = l ++ py_strip s ++ r.
Proof.
  destruct (py_lstrip_spec s) as [l Hl].
  destruct (py_lstrip_spec (reverse (py_lstrip s))) as [r Hr].
  exists l, (reverse r). unfold py_strip.
  rewrite <-reverse_app, <-Hr, reverse_involutive. done.
Qed.

Lemma py_lstrip_keeps pre c rest :
  py_isspace c = false → ∃ pre', py_lstrip (pre ++ c :: rest) = pre' ++ c :: rest.
Proof.
  intros Hc. induction pre as [|x pre [pre' IH]]; simpl.
  - rewrite Hc. by exists [].
  - destruct (py_isspace x); [by exists pre'|]. by exists (x :: pre).
Qed.

Lemma py_strip_keeps pre b mid y post :
  py_isspace b = false → py_isspace y = false →
  ∃ pre' post',
    py_strip (pre ++ b :: mid ++ y :: post) = pre' ++ b :: mid ++ y :: post'.
Proof.
  intros Hb Hy. unfold py_strip.
  destruct (py_lstrip_keeps pre b (mid ++ y :: post) Hb) as [pre' ->].
  rewrite reverse_app, reverse_cons, reverse_app, reverse_cons, <-!app_assoc.
  simpl.
  destruct (py_lstrip_keeps (reverse post) y (reverse mid ++ b :: reverse pre') Hy)
    as [post' ->].
  exists pre', (reverse post').
  rewrite reverse_app, reverse_cons, reverse_app, reverse_cons, <-!app_assoc.
  simpl. by rewrite !reverse_involutive.
Qed.

Lemma ascii_lower_b c : ascii_lower c = "b"%char ↔ (c = "b" ∨ c = "B")%char.
Proof.
  destruct c as [[] [] [] [] [] [] [] []]; vm_compute;
    (split; [intros [=]; auto | intros [[=]|[=]]; auto]).
Qed.

Lemma ascii_lower_u c : ascii_lower c = "u"%char ↔ (c = "u" ∨ c = "U")%char.
Proof.
  destruct c as [[] [] [] [] [] [] [] []]; vm_compute;
    (split; [intros [=]; auto | intros [[=]|[=]]; auto]).
Qed.

Lemma ascii_lower_y c : ascii_lower c = "y"%char ↔ (c = "y" ∨ c = "Y")%char.
Proof.
  destruct c as [[] [] [] [] [] [] [] []]; vm_compute;
    (split; [intros [=]; auto | intros [[=]|[=]]; auto]).
Qed.

Lemma py_lower_buy l :
  (∃ pre post, py_lower l = pre ++ chars "buy" ++ post) ↔
  ∃ pre b u y post, l = pre ++ [b; u; y] ++ post ∧ spells_buy b u y.
Proof.
  unfold py_lower, spells_buy. split.
  - intros (pre & post & Heq).
    apply fmap_app_inv in Heq as (pre' & rest & _ & Hrest & ->).
    symmetry in Hrest. change (chars "buy" ++ post)
      with ("b"%char :: "u"%char :: "y"%char :: post) in Hrest.
    apply fmap_cons_inv in Hrest as (b & rest1 & Hb & Hrest & ->).
    symmetry in Hrest.
    apply fmap_cons_inv in Hrest as (u & rest2 & Hu & Hrest & ->).
    symmetry in Hrest.
    apply fmap_cons_inv in Hrest as (y & post' & Hy & _ & ->).
    exists pre', b, u, y, post'. split; [done|].
    by rewrite <-ascii_lower_b, <-ascii_lower_u, <-ascii_lower_y.
  - intros (pre & b & u & y & post & -> & Hb & Hu & Hy).
    apply ascii_lower_b in Hb. apply ascii_lower_u in Hu.
    apply ascii_lower_y in Hy.
    exists (ascii_lower <$> pre), (ascii_lower <$> post).
    rewrite !fmap_app. simpl. by rewrite Hb, Hu, Hy.
Qed.

Lemma spells_buy_no_space b u y :
  spells_buy b u y → py_isspace b = false ∧ py_isspace y = false.
Proof. by intros ([-> | ->] & _ & [-> | ->]). Qed.

(** X17. A row reads as a BUY exactly when its direction text contains the
    letters b, u, y in a row, each in either case; every other text, the
    empty one included, reads as a SELL. Stripping the text does not change
    the answer. *)
Theorem parse_direction_buy_iff direction :
  let contains_buy :=
    ∃ pre b u y post, chars direction = pre ++ [b; u; y] ++ post ∧ spells_buy b u y in
  (parse_direction direction = BUY ↔ contains_buy) ∧
  (parse_direction direction = SELL ↔ ¬ contains_buy).
Proof.
  simpl. unfold parse_direction. fold (chars direction) (chars "buy").
  assert (py_in (chars "buy") (py_lower (py_strip (chars direction))) = true ↔
          ∃ pre b u y post,
            chars direction = pre ++ [b; u; y] ++ post ∧ spells_buy b u y) as Hin.
  { rewrite py_in_spec, py_lower_buy. split.
    - intros (pre & b & u & y & post & Hstrip & Hbuy).
      destruct (py_strip_spec (chars direction)) as (l & r & Hdir).
      exists (l ++ pre), b, u, y, (post ++ r). split; [|done].
      rewrite Hdir, Hstrip. by rewrite <-!app_assoc.
    - intros (pre & b & u & y & post & -> & Hbuy).
      destruct (spells_buy_no_space b u y Hbuy) as [Hb Hy].
      destruct (py_strip_keeps pre b [u] y post Hb Hy) as (pre' & post' & Hstrip).
      exists pre', b, u, y, post'. split; [|done]. exact Hstrip. }
  destruct (py_in _ _).
  - split; [|split; [done|]]; [tauto|]. intros Hnot. destruct Hnot. by apply Hin.
  - split; [split; [done|]|]; [intros Hc; by apply Hin in Hc|].
    split; [|done]. intros _ Hc. by apply Hin in Hc.
Qed.

(** ** Lots in date order *)

Lemma StronglySorted_sublist {A} (R : relation A) (l1 l2 : list A) :
  l1 `sublist_of` l2 → StronglySorted R l2 → StronglySorted R l1.
Proof.
  induction 1 as [|x l1 l2 Hsub IH|x l1 l2 Hsub IH]; intros Hsorted.
  - constructor.
  - apply StronglySorted_inv in Hsorted as [Hl2 Hx].
    constructor; [by apply IH|].
    apply Forall_forall. intros y Hy. rewrite Forall_forall in Hx.
    apply Hx. by eapply sublist_subseteq.
  - apply StronglySorted_inv in Hsorted as [Hl2 _]. by apply IH.
Qed.

Lemma fifo_loop_dates qty_to_sell cost_basis ledger :
  Lot.date <$> (fifo_loop qty_to_sell cost_basis ledger).2
  `sublist_of` Lot.date <$> ledger.
Proof.
  revert qty_to_sell cost_basis.
  induction ledger as [|head_lot rest IH]; intros qty_to_sell cost_basis; [done|].
  simpl. repeat case_decide; simpl; [|done..].
  by apply sublist_cons.
Qed.

Lemma scale_dates ratio (ledger : list Lot.t) :
  Lot.date <$> (scale ratio <$> ledger) = Lot.date <$> ledger.
Proof. rewrite <-list_fmap_compose. by apply list_fmap_ext. Qed.

Lemma consumed_dates method qty_to_sell ledger :
  Lot.date <$> (consumed method qty_to_sell ledger).2
  `sublist_of` Lot.date <$> ledger.
Proof.
  destruct (decide (method = "FIFO")) as [->|Hfifo].
  { rewrite consumed_fifo. apply fifo_loop_dates. }
  destruct (decide (method = "AVG")) as [->|Havg].
  - destruct (decide (0 < total_qty ledger)) as [Hpos|Hpos].
    + rewrite consumed_avg by done. simpl.
      trans (Lot.date <$>
             (scale ((total_qty ledger - qty_to_sell) / total_qty ledger) <$> ledger));
        [apply fmap_sublist, sublist_filter|by rewrite scale_dates].
    + by rewrite consumed_avg_empty.
  - unfold consumed, consume. by rewrite !decide_False.
Qed.

Lemma ledger_after_dates ticker method ledger trades ledger' :
  ledger_after ticker method ledger trades = inr ledger' →
  Lot.date <$> ledger'
  `sublist_of` (Lot.date <$> ledger) ++ (Trade.date <$> filter is_buy trades).
Proof.
  revert ledger. induction trades as [|t trades IH]; intros ledger.
  - intros [= ->]. simpl. by rewrite app_nil_r.
  - rewrite ledger_after_cons. destruct (Trade.direction t) eqn:Hdir.
    + destruct (decide (Trade.quantity t = 0)) as [Hzero|Hq].
      { by rewrite outcome_process_zero_buy. }
      rewrite outcome_process_buy by done. intros Hrest%IH.
      rewrite filter_cons_True by done.
      by rewrite fmap_app, <-app_assoc in Hrest.
    + rewrite outcome_process_sell by done. intros Hrest%IH.
      rewrite filter_cons_False by (unfold is_sell, is_buy; congruence).
      etrans; [exact Hrest|].
      apply sublist_app; [apply consumed_dates|done].
Qed.

Lemma ledger_of_sorted ticker method trades :
  StronglySorted by_date trades →
  StronglySorted lot_by_date (ledger_of ticker method trades).
Proof.
  intros Hsorted. unfold ledger_of.
  destruct (ledger_after ticker method [] trades) as [e|ledger] eqn:Hledger;
    [constructor|].
  apply ledger_after_dates in Hledger. simpl in Hledger.
  assert (StronglySorted Z.le (Lot.date <$> ledger)) as Hdates.
  { eapply StronglySorted_sublist; [exact Hledger|].
    apply (StronglySorted_fmap _ by_date); [done|].
    eapply StronglySorted_sublist; [apply sublist_filter|done]. }
  clear Hledger. induction ledger as [|lot ledger IH]; [constructor|].
  rewrite fmap_cons in Hdates.
  apply StronglySorted_inv in Hdates as [Hrest Hlot].
  constructor; [by apply IH|]. by rewrite Forall_fmap in Hlot.
Qed.

(** The ledger that a call stores for a security, whether it returns or
    raises later, is the one its loop leaves. *)
Lemma stored_ledger method self k lots :
  open_positions (calculate method self).2 !! k = Some lots →
  lots = ledger_of k method (filter (has_ticker k) (trades self)).
Proof.
  destruct ((calculate method self).1) as [e|[]] eqn:Hcall.
  - revert Hcall. rewrite calculate_run, group_by_ticker_eq.
    intros (done & g & rest & Hgroups & _ & ->)%process_groups_raises.
    apply fmap_app_inv in Hgroups as (ks1 & ks2 & -> & _ & _).
    unfold emit, result. cbn [open_positions].
    rewrite (foldl_insert_fmap _ (λ g, ledger_of g.1 method g.2)).
    cbn beta. cbn [fst snd].
    rewrite (lookup_foldl_insert
      (λ k, ledger_of k method (filter (has_ticker k) (trades self)))).
    case_decide; [by intros [= <-]|done].
  - apply calculate_inv in Hcall. rewrite calculate_returns by done.
    simpl. rewrite lookup_open_of. case_decide; [by intros [= <-]|done].
Qed.

(** X18. When the trades are in date order, as [load_trades] leaves them,
    every ledger that [calculate] stores is in date order too, under every
    method and also when the call raises later: the lot at the head, which
    FIFO consumes first, is the earliest purchase still open. *)
Theorem ledgers_in_date_order method self k lots :
  StronglySorted by_date (trades self) →
  open_positions (calculate method self).2 !! k = Some lots →
  StronglySorted lot_by_date lots.
Proof.
  intros Hsorted ->%stored_ledger. apply ledger_of_sorted.
  eapply StronglySorted_sublist; [apply sublist_filter|done].
Qed.

Lemma ledgers_in_date_order_witness :
  StronglySorted by_date (trades (load_trades example_rows __init__).2) ∧
  open_positions (calculate "FIFO" (load_trades example_rows __init__).2).2
    !! "AAPL"
  = Some (ledger_of "AAPL" "FIFO" (trades (load_trades example_rows __init__).2)) ∧
  StronglySorted lot_by_date
    (ledger_of "AAPL" "FIFO" (trades (load_trades example_rows __init__).2)).
Proof.
  assert (StronglySorted by_date (trades (load_trades example_rows __init__).2))
    as Hsorted.
  { apply (bool_decide_unpack _). vm_compute. exact I. }
  assert (open_positions (calculate "FIFO" (load_trades example_rows __init__).2).2
            !! "AAPL"
          = Some (ledger_of "AAPL" "FIFO"
                    (trades (load_trades example_rows __init__).2))) as Hlots.
  { apply (bool_decide_unpack _). vm_compute. exact I. }
  split_and!; [exact Hsorted|exact Hlots|].
  exact (ledgers_in_date_order "FIFO" _ "AAPL" _ Hsorted Hlots).
Defined.
